(** * labelbycondition: label rows by the first matching condition

    A shallow embedding of [labelbycondition.py] and the properties of its
    three functions: [_generate_label_column] (the label assembler),
    [_add_column] (the column merger) and [render] (the entry point).

    NumPy arrays are lists, Python exceptions are the [Raise] side of
    [result], the loop of [_generate_label_column] is a fold of its body
    [label_spec_step] over the rule list, threading the four local
    variables of the source in a [LoopState]. *)

From Stdlib Require Import ZArith Lia Ascii.
From stdpp Require Import base option list strings.

Local Open Scope string_scope.
Local Open Scope list_scope.
Local Open Scope nat_scope.

(** ** Exceptions and fallible computations *)

Inductive exn : Type :=
| re_error (pattern msg : string)   (* re.error, with .pattern and .msg *)
| ValueError
| IndexError
| ArrowInvalid
| OtherError.

Inductive result (A : Type) : Type :=
| Ok (a : A)
| Raise (e : exn).
Arguments Ok {A} a.
Arguments Raise {A} e.

#[global] Instance result_ret : MRet result := λ A a, Ok a.
#[global] Instance result_bind : MBind result := λ A B f m,
  match m with
  | Ok a => f a
  | Raise e => Raise e
  end.

(** ** NumPy: the array operations the source uses *)

Module np.

(** [np.ones(n, np.bool_)] *)
Definition ones (n : nat) : list bool := replicate n true.

(** [np.zeros(n, np.int32)] *)
Definition zeros (n : nat) : list Z := replicate n 0%Z.

(** [a & b] on one-dimensional boolean arrays: element-wise on equal
    shapes, a one-element operand is broadcast, other shapes raise. *)
Definition and_ (a b : list bool) : result (list bool) :=
  if decide (length a = length b) then Ok (zip_with andb a b)
  else match a, b with
       | [x], _ => Ok (andb x <$> b)
       | _, [y] => Ok ((λ x, andb x y) <$> a)
       | _, _ => Raise ValueError
       end.

(** [np.any(a)] *)
Definition any (a : list bool) : bool := existsb id a.

(** [arr[mask] = v] with a boolean index: the index must have the shape
    of the array. *)
Definition setitem {A} (arr : list A) (mask : list bool) (v : A)
  : result (list A) :=
  if decide (length mask = length arr)
  then Ok (zip_with (λ x (m : bool), if m then v else x) arr mask)
  else Raise IndexError.

(** What a store into an [np.int32] array keeps of a Python integer. *)
Definition int32 (z : Z) : Z := ((z + 2 ^ 31) `mod` 2 ^ 32 - 2 ^ 31)%Z.

End np.

(** [l.index(x)]: position of the first occurrence, [ValueError] if none. *)
Definition index {A} `{EqDecision A} (l : list A) (x : A) : result nat :=
  match list_find (x =.) l with
  | Some (i, _) => Ok i
  | None => Raise ValueError
  end.

(** ** pyarrow: dictionary arrays and tables *)

Record DictionaryArray : Type := {
  dict_indices : list Z;
  dictionary : list string;
  mask : list bool              (* true marks a null slot *)
}.

(** A non-null slot must point into the dictionary. *)
Definition index_in_bounds (dict : list string) (i : Z) (null : bool) : bool :=
  null
  || (bool_decide (0 ≤ i)%Z && bool_decide (i < Z.of_nat (length dict))%Z).

(** [pa.DictionaryArray.from_arrays(indices, dictionary, mask=mask)],
    which checks the indices (its [safe] default). *)
Definition from_arrays (indices : list Z) (dict : list string)
    (mask : list bool) : result DictionaryArray :=
  if decide (length mask = length indices) then
    if forallb (λ im, index_in_bounds dict im.1 im.2) (zip indices mask)
    then Ok {| dict_indices := indices; dictionary := dict; mask := mask |}
    else Raise ArrowInvalid
  else Raise ValueError.

(** [array.to_pylist()] *)
Definition to_pylist (a : DictionaryArray) : list (option string) :=
  zip_with (λ (i : Z) (null : bool),
              if null then None else dictionary a !! Z.to_nat i)
           (dict_indices a) (mask a).

Inductive Array : Type :=
| Int64Array (xs : list (option Z))
| StringArray (xs : list (option string))
| DictArray (a : DictionaryArray).

Definition len (data : Array) : nat :=
  match data with
  | Int64Array xs => length xs
  | StringArray xs => length xs
  | DictArray a => length (dict_indices a)
  end.

Record Table : Type := {
  num_rows : nat;                       (* len(table) *)
  columns : list (string * Array)
}.

Definition column_names (t : Table) : list string := (columns t).*1.

(** [table.set_column(i, name, data)] *)
Definition set_column (t : Table) (i : nat) (name : string) (data : Array)
  : result Table :=
  if decide (len data = num_rows t) then
    if decide (i < length (columns t))
    then Ok {| num_rows := num_rows t;
               columns := <[i := (name, data)]> (columns t) |}
    else Raise IndexError
  else Raise ArrowInvalid.

(** [table.append_column(name, data)] *)
Definition append_column (t : Table) (name : string) (data : Array)
  : result Table :=
  if decide (len data = num_rows t)
  then Ok {| num_rows := num_rows t; columns := columns t ++ [(name, data)] |}
  else Raise ArrowInvalid.

(** ** cjwmodule: messages and the two collaborators *)

Inductive I18nArg : Type :=
| ArgStr (s : string)
| ArgInt (n : Z).

Record I18nMessage : Type := {
  msg_id : string;
  msg_arguments : list (string * I18nArg);
  msg_source : string
}.

(** [i18n.trans(id, default, arguments)] *)
Definition trans (id default : string) (arguments : list (string * I18nArg))
  : I18nMessage :=
  {| msg_id := id; msg_arguments := arguments; msg_source := "module" |}.

(** The condition evaluator and the column-name sanitizer live in
    cjwmodule; the module only calls them. *)
Class Cjwmodule : Type := {
  Condition : Type;
  Settings : Type;
  condition_to_mask : Table → Condition → result (list bool);
  gen_unique_clean_colnames_and_warn :
    list string → list string → Settings → list string * list I18nMessage
}.

(** ** The module *)

Section labelbycondition.
Context `{!Cjwmodule}.

(** One entry of [params["labels"]]. *)
Record LabelSpec : Type := {
  value : string;
  condition : option Condition
}.

Record Params : Type := {
  colname : string;
  labels : list LabelSpec
}.

(** The local variables of [_generate_label_column]. *)
Record LoopState : Type := {
  errors : list I18nMessage;
  nulls : list bool;
  values : list string;
  indices : list Z
}.

Definition invalidRegex (pattern msg : string) : I18nMessage :=
  trans "error.invalidRegex"
        "Invalid regular expression “{pattern}”: {message}"
        [("value", ArgStr pattern); ("message", ArgStr msg)].

(** The body of [for label_spec in label_specs]; [Ok st] with the state
    unchanged is a [continue]. *)
Definition label_spec_step (arrow_table : Table) (st : LoopState)
    (label_spec : LabelSpec) : result LoopState :=
  let value := value label_spec in
  match condition label_spec with
  | None => Ok st
  | Some condition =>
    match condition_to_mask arrow_table condition with
    | Raise (re_error pattern msg) =>
        Ok {| errors := errors st ++ [invalidRegex pattern msg];
              nulls := nulls st; values := values st;
              indices := indices st |}
    | Raise e => Raise e
    | Ok mask =>
        np_mask ← np.and_ mask (nulls st);
        if negb (np.any np_mask) then Ok st
        else
          let '(index, values') :=
            match index (values st) value with
            | Ok index => (index, values st)
            | Raise _ => (length (values st), values st ++ [value])
            end in
          nulls' ← np.setitem (nulls st) np_mask false;
          indices' ← (if decide (0 < index)
                       then np.setitem (indices st) np_mask
                                       (np.int32 (Z.of_nat index))
                       else Ok (indices st));
          Ok {| errors := errors st; nulls := nulls';
                values := values'; indices := indices' |}
    end
  end.

Definition initial_state (arrow_table : Table) : LoopState :=
  {| errors := [];
     nulls := np.ones (num_rows arrow_table);
     values := [];
     indices := np.zeros (num_rows arrow_table) |}.

(** The loop: the body applied to each rule in order, stopping at the
    first exception. *)
Fixpoint run_loop (arrow_table : Table) (st : LoopState)
    (label_specs : list LabelSpec) : result LoopState :=
  match label_specs with
  | [] => Ok st
  | label_spec :: rest =>
      st' ← label_spec_step arrow_table st label_spec;
      run_loop arrow_table st' rest
  end.

Definition _generate_label_column (arrow_table : Table)
    (label_specs : list LabelSpec)
  : result (DictionaryArray * list I18nMessage) :=
  st ← run_loop arrow_table (initial_state arrow_table) label_specs;
  array ← from_arrays (indices st) (values st) (nulls st);
  Ok (array, errors st).

Definition _add_column (arrow_table : Table) (name : string) (data : Array)
    (settings : Settings) : result (Table * list I18nMessage) :=
  if decide (name ∈ column_names arrow_table) then
    i ← index (column_names arrow_table) name;
    t ← set_column arrow_table i name data;
    Ok (t, [])
  else
    match gen_unique_clean_colnames_and_warn
            [name] (column_names arrow_table) settings with
    | ([clean_colname], errors) =>
        t ← append_column arrow_table clean_colname data;
        Ok (t, errors)
    | _ => Raise ValueError
    end.

(** [render] returns its error list; the table it writes to
    [output_path], if any, is the first component. *)
Definition render (arrow_table : Table) (params : Params)
    (settings : Settings) : result (option Table * list I18nMessage) :=
  if decide (colname params = EmptyString) then Ok (Some arrow_table, [])
  else
    '(label_column, errors) ←
      _generate_label_column arrow_table (labels params);
    if decide (errors ≠ []) then Ok (None, errors)
    else
      '(output_table, add_column_errors) ←
        _add_column arrow_table (colname params) (DictArray label_column)
                    settings;
      Ok (Some output_table, errors ++ add_column_errors).

(** ** The loop without the index-0 shortcut

    The same body, except that the resolved index is stored for every
    selected row, also when it is 0. *)

Definition label_spec_step_naive (arrow_table : Table) (st : LoopState)
    (label_spec : LabelSpec) : result LoopState :=
  let value := value label_spec in
  match condition label_spec with
  | None => Ok st
  | Some condition =>
    match condition_to_mask arrow_table condition with
    | Raise (re_error pattern msg) =>
        Ok {| errors := errors st ++ [invalidRegex pattern msg];
              nulls := nulls st; values := values st;
              indices := indices st |}
    | Raise e => Raise e
    | Ok mask =>
        np_mask ← np.and_ mask (nulls st);
        if negb (np.any np_mask) then Ok st
        else
          let '(index, values') :=
            match index (values st) value with
            | Ok index => (index, values st)
            | Raise _ => (length (values st), values st ++ [value])
            end in
          nulls' ← np.setitem (nulls st) np_mask false;
          indices' ← np.setitem (indices st) np_mask
                                (np.int32 (Z.of_nat index));
          Ok {| errors := errors st; nulls := nulls';
                values := values'; indices := indices' |}
    end
  end.

Fixpoint run_loop_naive (arrow_table : Table) (st : LoopState)
    (label_specs : list LabelSpec) : result LoopState :=
  match label_specs with
  | [] => Ok st
  | label_spec :: rest =>
      st' ← label_spec_step_naive arrow_table st label_spec;
      run_loop_naive arrow_table st' rest
  end.

Definition _generate_label_column_naive (arrow_table : Table)
    (label_specs : list LabelSpec)
  : result (DictionaryArray * list I18nMessage) :=
  st ← run_loop_naive arrow_table (initial_state arrow_table) label_specs;
  array ← from_arrays (indices st) (values st) (nulls st);
  Ok (array, errors st).

(** ** Vocabulary of the properties *)

(** The mask of a rule whose condition is present and evaluates. *)
Definition rule_mask (t : Table) (spec : LabelSpec) : option (list bool) :=
  c ← condition spec;
  match condition_to_mask t c with
  | Ok m => Some m
  | Raise _ => None
  end.

(** The rule's condition is present, evaluates, and its mask selects
    row [r]. *)
Definition matches (t : Table) (spec : LabelSpec) (r : nat) : bool :=
  match rule_mask t spec with
  | Some m => default false (m !! r)
  | None => false
  end.

(** The first rule, in input order, that matches row [r], with its
    position. *)
Definition first_match (t : Table) (specs : list LabelSpec) (r : nat)
  : option (nat * LabelSpec) :=
  list_find (λ spec, matches t spec r) specs.

(** Some rule of [specs] matches row [r]. *)
Definition claimed (t : Table) (specs : list LabelSpec) (r : nat) : bool :=
  existsb (λ spec, matches t spec r) specs.

(** The rows a rule selects among those that the rules [before] it left
    unlabeled: the rows of its effective mask. *)
Definition effective_rows (t : Table) (before : list LabelSpec)
    (spec : LabelSpec) : list nat :=
  filter (λ r, matches t spec r && negb (claimed t before r))
         (seq 0 (num_rows t)).

(** The rules whose effective selection is not empty, in input order. *)
Fixpoint used_rules_from (t : Table) (before specs : list LabelSpec)
  : list LabelSpec :=
  match specs with
  | [] => []
  | spec :: rest =>
      (if decide (effective_rows t before spec = []) then [] else [spec])
      ++ used_rules_from t (before ++ [spec]) rest
  end.

Definition used_rules (t : Table) (specs : list LabelSpec)
  : list LabelSpec :=
  used_rules_from t [] specs.

(** A list without its repetitions, each element at its first place. *)
Definition first_seen (l : list string) : list string :=
  foldl (λ acc x, if decide (x ∈ acc) then acc else acc ++ [x]) [] l.

(** The message of a rule whose condition raises [re.error]. *)
Definition pattern_error (t : Table) (spec : LabelSpec)
  : option I18nMessage :=
  c ← condition spec;
  match condition_to_mask t c with
  | Raise (re_error pattern msg) => Some (invalidRegex pattern msg)
  | _ => None
  end.

Definition pattern_errors (t : Table) (specs : list LabelSpec)
  : list I18nMessage :=
  omap (pattern_error t) specs.

(** What the module expects of the evaluator on a rule: a mask with one
    entry per row, or [re.error]. *)
Definition evaluates (t : Table) (spec : LabelSpec) : bool :=
  match condition spec with
  | None => true
  | Some c =>
      match condition_to_mask t c with
      | Ok m => bool_decide (length m = num_rows t)
      | Raise (re_error _ _) => true
      | Raise _ => false
      end
  end.

Definition evaluator_contract (t : Table) (specs : list LabelSpec) : Prop :=
  forallb (evaluates t) specs = true.

(** Dictionary positions fit the [np.int32] index array. *)
Definition fits_int32 (specs : list LabelSpec) : Prop :=
  (Z.of_nat (length specs) < 2 ^ 31)%Z.

(** The state of the loop refers to dictionary entries that exist, and
    the dictionary has no repetition. *)
Definition well_formed (st : LoopState) : Prop :=
  NoDup (values st) ∧
  ∀ r, nulls st !! r = Some false →
       ∃ i, indices st !! r = Some i
            ∧ (0 ≤ i < Z.of_nat (length (values st)))%Z.

(** The dictionary array that the loop state holds: what
    [_generate_label_column] would return from it. *)
Definition array_of (st : LoopState) : DictionaryArray :=
  {| dict_indices := indices st; dictionary := values st;
     mask := nulls st |}.

(** The loop invariant: the state [st] reached after the rules [before],
    on a table [t] whose evaluator honours its contract. *)
Record loop_invariant (t : Table) (before : list LabelSpec)
    (st : LoopState) : Prop := {
  inv_nulls_length : length (nulls st) = num_rows t;
  inv_indices_length : length (indices st) = num_rows t;
  inv_nulls : ∀ r, r < num_rows t →
    nulls st !! r = Some (negb (claimed t before r));
  inv_unlabeled : ∀ r, r < num_rows t → claimed t before r = false →
    indices st !! r = Some 0%Z;
  inv_labeled : ∀ r i spec, r < num_rows t →
    first_match t before r = Some (i, spec) →
    ∃ k, indices st !! r = Some (Z.of_nat k)
         ∧ values st !! k = Some (value spec);
  inv_values : values st = first_seen (value <$> used_rules t before);
  inv_size : length (values st) ≤ length before;
  inv_errors : errors st = pattern_errors t before
}.

(** What the index-0 shortcut relies on: a null row still has the index
    it was created with. *)
Definition null_rows_zero (st : LoopState) : Prop :=
  length (nulls st) = length (indices st) ∧
  ∀ r, nulls st !! r = Some true → indices st !! r = Some 0%Z.

End labelbycondition.

(** ** A small evaluator and sanitizer to run the module on

    Stand-ins for the two cjwmodule functions, enough for the tables of the
    test suite: number comparisons on integer columns, and a text pattern
    that is rejected when it is a bare repetition operator. *)

Inductive TestCondition : Type :=
| EQ (column : string) (value : Z)        (* number_is *)
| GT (column : string) (value : Z)        (* number_is_greater_than *)
| REGEX (column pattern : string).        (* text_is, isRegex *)

Definition test_column (t : Table) (name : string) : option Array :=
  snd <$> (snd <$> list_find (λ c, c.1 = name) (columns t)).

Definition test_condition_to_mask (t : Table) (c : TestCondition)
  : result (list bool) :=
  match c with
  | EQ column v =>
      match test_column t column with
      | Some (Int64Array xs) => Ok ((λ x, bool_decide (x = Some v)) <$> xs)
      | _ => Raise OtherError
      end
  | GT column v =>
      match test_column t column with
      | Some (Int64Array xs) =>
          Ok ((λ x, match x with
                    | Some n => bool_decide (v < n)%Z
                    | None => false
                    end) <$> xs)
      | _ => Raise OtherError
      end
  | REGEX column pattern =>
      if decide (pattern ∈ ["*"; "+"])
      then Raise (re_error pattern
                    ("no argument for repetition operator: " +:+ pattern))
      else match test_column t column with
           | Some (StringArray xs) =>
               Ok ((λ x, bool_decide (x = Some pattern)) <$> xs)
           | _ => Raise OtherError
           end
  end.

(** Drops ASCII control characters. *)
Fixpoint test_clean (s : string) : string :=
  match s with
  | EmptyString => EmptyString
  | String a rest =>
      if decide (Ascii.nat_of_ascii a < 32) then test_clean rest
      else String a (test_clean rest)
  end.

Definition test_gen_unique_clean_colnames_and_warn
    (names existing : list string) (settings : unit)
  : list string * list I18nMessage :=
  let cleaned := test_clean <$> names in
  (cleaned,
   match filter (λ n, test_clean n ≠ n) names with
   | [] => []
   | (first :: _) as changed =>
       [ {| msg_id := "util.colnames.warnings.ascii_cleaned";
            msg_arguments :=
              [("n_columns", ArgInt (Z.of_nat (length changed)));
               ("first_colname", ArgStr (test_clean first))];
            msg_source := "cjwmodule" |} ]
   end).

Definition test_cjwmodule : Cjwmodule :=
  {| Condition := TestCondition;
     Settings := unit;
     condition_to_mask := test_condition_to_mask;
     gen_unique_clean_colnames_and_warn :=
       test_gen_unique_clean_colnames_and_warn |}.

(** Rules and tables of the test suite. *)
Definition rule (value : string) (c : option TestCondition)
  : @LabelSpec test_cjwmodule :=
  @Build_LabelSpec test_cjwmodule value c.

Definition table_A123 : Table :=
  {| num_rows := 3;
     columns := [("A", Int64Array [Some 1; Some 2; Some 3]%Z)] |}.

Definition table_A123_B234 : Table :=
  {| num_rows := 3;
     columns := [("A", Int64Array [Some 1; Some 2; Some 3]%Z);
                 ("B", Int64Array [Some 2; Some 3; Some 4]%Z)] |}.

Definition table_empty : Table :=
  {| num_rows := 0; columns := [("A", Int64Array [])] |}.

Definition table_text : Table :=
  {| num_rows := 2; columns := [("A", StringArray [Some "a"; Some "b"])] |}.

Definition rules_match : list (@LabelSpec test_cjwmodule) :=
  [rule "a" (Some (EQ "A" 2))].

Definition rules_double_match : list (@LabelSpec test_cjwmodule) :=
  [rule "a" (Some (EQ "A" 2)); rule "b" (Some (GT "A" 1))].

Definition rules_duplicate_value : list (@LabelSpec test_cjwmodule) :=
  [rule "a" (Some (EQ "A" 2)); rule "a" (Some (EQ "A" 3))].

Definition rules_unused_first : list (@LabelSpec test_cjwmodule) :=
  [rule "b" (Some (EQ "A" 4)); rule "a" (Some (EQ "A" 2));
   rule "b" (Some (EQ "A" 3))].

Definition rules_regex_errors : list (@LabelSpec test_cjwmodule) :=
  [rule "a" (Some (REGEX "A" "*")); rule "b" (Some (REGEX "A" "+"))].

Definition rules_one_regex_error : list (@LabelSpec test_cjwmodule) :=
  [rule "a" (Some (REGEX "A" "*"))].

(** The column name ["B\r"] of the test suite. *)
Definition colname_B_cr : string :=
  String "B"%char (String "013"%char EmptyString).

(** Further rule lists on the table [A = 1, 2, 3]. *)
Definition rules_ignore_null : list (@LabelSpec test_cjwmodule) :=
  [rule "a" None].

Definition rules_missing_column : list (@LabelSpec test_cjwmodule) :=
  [rule "z" (Some (EQ "Z" 1)); rule "b" (Some (GT "A" 1))].

Definition rules_disjoint : list (@LabelSpec test_cjwmodule) :=
  [rule "a" (Some (EQ "A" 2)); rule "b" (Some (EQ "A" 3))].

Definition rules_disjoint_swapped : list (@LabelSpec test_cjwmodule) :=
  [rule "b" (Some (EQ "A" 3)); rule "a" (Some (EQ "A" 2))].

Section vocabulary.
Context `{!Cjwmodule}.

(** Two rules that select the same row carry the same value. *)
Definition overlaps_agree (t : Table) (specs : list LabelSpec) : bool :=
  forallb (λ r,
    forallb (λ a,
      forallb (λ b,
        implb (matches t a r && matches t b r)
              (bool_decide (value a = value b))) specs) specs)
    (seq 0 (num_rows t)).

(** The array with every row null: what the loop starts from. *)
Definition all_null (t : Table) : DictionaryArray :=
  {| dict_indices := np.zeros (num_rows t); dictionary := [];
     mask := np.ones (num_rows t) |}.

End vocabulary.

(** * Properties *)

Section properties.
Context `{!Cjwmodule}.
Implicit Types (t : Table) (st : LoopState) (spec : LabelSpec)
               (specs before : list LabelSpec) (r : nat).

Lemma run_loop_app t st specs1 specs2 :
  run_loop t st (specs1 ++ specs2)
  = run_loop t st specs1 ≫= λ st', run_loop t st' specs2.
Proof.
  revert st. induction specs1 as [|spec specs1 IH]; intros st; simpl; [done|].
  destruct (label_spec_step t st spec) as [st'|e]; simpl; [apply IH|done].
Qed.

Lemma claimed_app t specs1 specs2 r :
  claimed t (specs1 ++ specs2) r = claimed t specs1 r || claimed t specs2 r.
Proof. unfold claimed. apply existsb_app. Qed.

Lemma claimed_first_match t specs r :
  claimed t specs r = false ↔ first_match t specs r = None.
Proof.
  unfold claimed, first_match. rewrite list_find_None, Forall_forall.
  split.
  - intros Hex spec Hin Hm. 
    assert (existsb (λ spec, matches t spec r) specs = true) as Hc;
      [|congruence].
    apply existsb_exists. exists spec. split; [by apply list_elem_of_In|].
    by apply Is_true_true.
  - intros Hall. apply not_true_is_false.
    intros (spec & Hin & Hm)%existsb_exists.
    apply (Hall spec); [by apply list_elem_of_In | by apply Is_true_true].
Qed.

Lemma first_seen_snoc l x :
  first_seen (l ++ [x])
  = if decide (x ∈ first_seen l) then first_seen l else first_seen l ++ [x].
Proof. unfold first_seen. by rewrite foldl_app. Qed.

Lemma first_seen_NoDup l : NoDup (first_seen l).
Proof.
  induction l as [|x l IH] using rev_ind; [constructor|].
  rewrite first_seen_snoc. case_decide; [done|].
  apply NoDup_app. split_and!; [done| |apply NoDup_singleton].
  intros y Hy ->%list_elem_of_singleton. done.
Qed.

Lemma used_rules_from_snoc t before specs spec :
  used_rules_from t before (specs ++ [spec])
  = used_rules_from t before specs
    ++ (if decide (effective_rows t (before ++ specs) spec = []) then []
        else [spec]).
Proof.
  revert before. induction specs as [|x specs IH]; intros before; simpl.
  - by rewrite !app_nil_r.
  - rewrite IH, <- !(assoc_L (++)). done.
Qed.

Lemma any_true (l : list bool) : np.any l = true ↔ ∃ r, l !! r = Some true.
Proof.
  unfold np.any. rewrite existsb_exists. split.
  - intros (x & Hin & Hx). simpl in Hx. subst x.
    apply list_elem_of_In, list_elem_of_lookup in Hin. done.
  - intros (r & Hr). exists true. split; [|done].
    apply list_elem_of_In, list_elem_of_lookup. eauto.
Qed.

Lemma effective_rows_nil t before spec :
  effective_rows t before spec = [] ↔
  ∀ r, r < num_rows t → matches t spec r = true →
       claimed t before r = true.
Proof.
  unfold effective_rows. split.
  - intros Hnil r Hr Hm. destruct (claimed t before r) eqn:Hc; [done|].
    exfalso. eapply (filter_nil_not_elem_of _ _ r Hnil).
    + rewrite Hm, Hc. done.
    + apply elem_of_seq. lia.
  - intros Hall. apply elem_of_nil_inv. intros r.
    rewrite list_elem_of_filter, elem_of_seq.
    intros [[Hm Hc]%andb_prop_elim [_ Hr]].
    apply Is_true_true in Hm. rewrite (Hall r) in Hc by (done || lia). done.
Qed.

Lemma matches_lookup t spec c m r :
  condition spec = Some c → condition_to_mask t c = Ok m →
  r < length m → m !! r = Some (matches t spec r).
Proof.
  intros Hc Hm Hr. unfold matches, rule_mask. rewrite Hc. simpl. rewrite Hm.
  destruct (lookup_lt_is_Some_2 m r Hr) as [b Hb]. by rewrite Hb.
Qed.

Lemma matches_no_mask t spec r :
  rule_mask t spec = None → matches t spec r = false.
Proof. unfold matches. by intros ->. Qed.

Lemma index_Ok (l : list string) x i : index l x = Ok i → l !! i = Some x.
Proof.
  unfold index. destruct (list_find _ l) as [[j y]|] eqn:Hf; [|done].
  intros [= ->]. apply list_find_Some in Hf as (? & -> & _). done.
Qed.

Lemma index_Raise (l : list string) x e : index l x = Raise e → x ∉ l.
Proof.
  unfold index. destruct (list_find _ l) as [[j y]|] eqn:Hf; [done|].
  intros _ Hin. apply list_find_None in Hf.
  rewrite Forall_forall in Hf. by apply (Hf x).
Qed.

Lemma int32_small (n : nat) :
  (Z.of_nat n < 2 ^ 31)%Z → np.int32 (Z.of_nat n) = Z.of_nat n.
Proof.
  intros Hn. unfold np.int32.
  rewrite Z.mod_small; lia.
Qed.

Lemma first_match_snoc t before spec r :
  first_match t (before ++ [spec]) r
  = match first_match t before r with
    | Some found => Some found
    | None => if matches t spec r then Some (length before, spec) else None
    end.
Proof.
  unfold first_match.
  destruct (list_find _ before) as [[i x]|] eqn:Hf.
  - by apply list_find_app_l.
  - rewrite list_find_app_r by done. simpl.
    by destruct (matches t spec r).
Qed.

Lemma used_rules_snoc t before spec :
  used_rules t (before ++ [spec])
  = used_rules t before
    ++ (if decide (effective_rows t before spec = []) then [] else [spec]).
Proof. unfold used_rules. by rewrite used_rules_from_snoc. Qed.

Lemma pattern_errors_snoc t before spec :
  pattern_errors t (before ++ [spec])
  = pattern_errors t before ++ option_list (pattern_error t spec).
Proof.
  unfold pattern_errors. rewrite omap_app. simpl.
  by destruct (pattern_error t spec).
Qed.

Lemma np_mask_lookup t before st spec c m r :
  condition spec = Some c → condition_to_mask t c = Ok m →
  length m = num_rows t → loop_invariant t before st → r < num_rows t →
  zip_with andb m (nulls st) !! r
  = Some (matches t spec r && negb (claimed t before r)).
Proof.
  intros Hc Hm Hlen Hinv Hr. rewrite lookup_zip_with.
  rewrite (matches_lookup t spec c m r) by (done || lia).
  rewrite (inv_nulls _ _ _ Hinv) by done. done.
Qed.

Lemma np_mask_any t before st spec c m :
  condition spec = Some c → condition_to_mask t c = Ok m →
  length m = num_rows t → loop_invariant t before st →
  np.any (zip_with andb m (nulls st))
  = negb (bool_decide (effective_rows t before spec = [])).
Proof.
  intros Hc Hm Hlen Hinv.
  destruct (np.any _) eqn:Hany.
  - apply any_true in Hany as [r Hr].
    assert (r < num_rows t) as Hlt.
    { apply lookup_lt_Some in Hr. rewrite length_zip_with in Hr. lia. }
    rewrite (np_mask_lookup t before st spec c m r) in Hr by done.
    injection Hr as Hr. apply andb_prop in Hr as [Hma Hcl].
    rewrite bool_decide_false; [done|].
    intros Hnil. rewrite (proj1 (effective_rows_nil _ _ _) Hnil r) in Hcl; done.
  - rewrite bool_decide_true; [done|].
    apply effective_rows_nil. intros r Hr Hma.
    destruct (claimed t before r) eqn:Hcl; [done|].
    assert (np.any (zip_with andb m (nulls st)) = true) as Hcontra;
      [|congruence].
    apply any_true. exists r.
    rewrite (np_mask_lookup t before st spec c m r) by done.
    by rewrite Hma, Hcl.
Qed.

Lemma invariant_no_effect t before st spec :
  loop_invariant t before st →
  effective_rows t before spec = [] →
  loop_invariant t (before ++ [spec])
    {| errors := errors st ++ option_list (pattern_error t spec);
       nulls := nulls st; values := values st; indices := indices st |}.
Proof.
  intros Hinv Hnil.
  pose proof (proj1 (effective_rows_nil _ _ _) Hnil) as Heff.
  split; simpl.
  - apply Hinv.
  - apply Hinv.
  - intros r Hr. rewrite (inv_nulls _ _ _ Hinv) by done.
    rewrite claimed_app. simpl. rewrite orb_false_r.
    destruct (matches t spec r) eqn:Hma; [|by rewrite orb_false_r].
    by rewrite (Heff r Hr Hma).
  - intros r Hr. rewrite claimed_app. intros [Hcl _]%orb_false_elim.
    by apply Hinv.
  - intros r i x Hr. rewrite first_match_snoc.
    destruct (first_match t before r) as [found|] eqn:Hf.
    + intros [= ->]. by eapply (inv_labeled _ _ _ Hinv).
    + apply claimed_first_match in Hf.
      destruct (matches t spec r) eqn:Hma; [|done].
      rewrite (Heff r Hr Hma) in Hf. done.
  - rewrite used_rules_snoc, decide_True by done.
    rewrite app_nil_r. apply Hinv.
  - rewrite length_app. pose proof (inv_size _ _ _ Hinv). lia.
  - rewrite pattern_errors_snoc. by rewrite (inv_errors _ _ _ Hinv).
Qed.

Lemma state_eta st :
  {| errors := errors st; nulls := nulls st; values := values st;
     indices := indices st |} = st.
Proof. by destruct st. Qed.

(** Resolving a value in the dictionary: its position if it is there,
    a new last entry if not. *)
Lemma resolve_value (vals : list string) (v : string) (l : list string) :
  vals = first_seen l →
  ∃ idx vals',
    match index vals v with
    | Ok index => (index, vals)
    | Raise _ => (length vals, vals ++ [v])
    end = (idx, vals')
    ∧ vals' !! idx = Some v
    ∧ (∀ k x, vals !! k = Some x → vals' !! k = Some x)
    ∧ vals' = first_seen (l ++ [v])
    ∧ length vals' ≤ S (length vals)
    ∧ idx ≤ length vals.
Proof.
  intros Hvals. rewrite first_seen_snoc, <- Hvals.
  destruct (index vals v) as [i|e] eqn:Hi.
  - exists i, vals. pose proof (index_Ok _ _ _ Hi) as Hlook.
    split_and!; try done.
    + rewrite decide_True; [done|]. apply list_elem_of_lookup. eauto.
    + lia.
    + apply lookup_lt_Some in Hlook. lia.
  - exists (length vals), (vals ++ [v]).
    pose proof (index_Raise _ _ _ Hi) as Hnot.
    split_and!; try done.
    + by rewrite lookup_app_r, Nat.sub_diag by lia.
    + intros k x Hk. rewrite lookup_app_l; [done|].
      by apply lookup_lt_Some in Hk.
    + by rewrite decide_False.
    + rewrite length_app. simpl. lia.
Qed.

Lemma setitem_Ok {A} (arr : list A) (mask : list bool) (v : A) :
  length mask = length arr →
  np.setitem arr mask v
  = Ok (zip_with (λ x (m : bool), if m then v else x) arr mask).
Proof. intros Hlen. unfold np.setitem. by rewrite decide_True. Qed.

Lemma invariant_skip t before st spec :
  loop_invariant t before st →
  effective_rows t before spec = [] →
  pattern_error t spec = None →
  loop_invariant t (before ++ [spec]) st.
Proof.
  intros Hinv Hnil Hpe.
  pose proof (invariant_no_effect t before st spec Hinv Hnil) as Hnext.
  rewrite Hpe in Hnext. simpl in Hnext.
  by rewrite app_nil_r, state_eta in Hnext.
Qed.

Lemma no_mask_no_effect t before spec :
  rule_mask t spec = None → effective_rows t before spec = [].
Proof.
  intros Hno. apply effective_rows_nil. intros r _.
  by rewrite matches_no_mask.
Qed.

Lemma label_spec_step_invariant t before st spec :
  evaluates t spec = true →
  (Z.of_nat (length before) < 2 ^ 31)%Z →
  loop_invariant t before st →
  ∃ st', label_spec_step t st spec = Ok st'
         ∧ loop_invariant t (before ++ [spec]) st'.
Proof.
  intros Hev Hfit Hinv. unfold label_spec_step, evaluates in *.
  destruct (condition spec) as [c|] eqn:Hc.
  2:{ exists st. split; [done|]. apply invariant_skip; [done| |].
      - apply no_mask_no_effect. unfold rule_mask. by rewrite Hc.
      - unfold pattern_error. by rewrite Hc. }
  destruct (condition_to_mask t c) as [m|e] eqn:Hm.
  2:{ destruct e as [pattern msg| | | |]; try done.
      eexists. split; [done|].
      pose proof (invariant_no_effect t before st spec Hinv) as Hnext.
      unfold pattern_error in Hnext. rewrite Hc in Hnext. simpl in Hnext.
      rewrite Hm in Hnext. apply Hnext.
      apply no_mask_no_effect. unfold rule_mask. rewrite Hc. simpl.
      by rewrite Hm. }
  apply bool_decide_eq_true in Hev.
  pose proof (inv_nulls_length _ _ _ Hinv) as Hnl.
  pose proof (inv_indices_length _ _ _ Hinv) as Hil.
  unfold np.and_. rewrite decide_True by lia. simpl.
  rewrite (np_mask_any t before st spec c m) by done.
  case_bool_decide as Heff; simpl.
  { exists st. split; [done|]. apply invariant_skip; [done..|].
    unfold pattern_error. rewrite Hc. simpl. by rewrite Hm. }
  destruct (resolve_value (values st) (value spec)
              (value <$> used_rules t before) (inv_values _ _ _ Hinv))
    as (idx & vals' & -> & Hidx & Hkeep & Hvals & Hsize & Hle).
  pose proof (inv_size _ _ _ Hinv) as Hsz.
  set (np_mask := zip_with andb m (nulls st)).
  assert (length np_mask = num_rows t) as Hml.
  { unfold np_mask. rewrite length_zip_with. lia. }
  rewrite (setitem_Ok (nulls st) np_mask false) by lia.
  simpl.
  set (nulls' := zip_with _ (nulls st) np_mask).
  assert (∃ indices',
    (if decide (0 < idx)
     then np.setitem (indices st) np_mask (np.int32 (Z.of_nat idx))
     else Ok (indices st)) = Ok indices'
    ∧ length indices' = num_rows t
    ∧ ∀ r, r < num_rows t →
        indices' !! r
        = if matches t spec r && negb (claimed t before r)
          then Some (Z.of_nat idx) else indices st !! r)
    as (indices' & -> & Hil' & Hind).
  { case_decide as Hpos.
    - rewrite setitem_Ok by lia.
      eexists. split; [done|]. split.
      + rewrite length_zip_with. lia.
      + intros r Hr. rewrite lookup_zip_with. unfold np_mask.
        rewrite (np_mask_lookup t before st spec c m r) by done.
        destruct (lookup_lt_is_Some_2 (indices st) r) as [i Hi]; [lia|].
        rewrite Hi. simpl. rewrite int32_small by lia.
        by destruct (matches t spec r && negb (claimed t before r)).
    - exists (indices st). split; [done|]. split; [done|].
      intros r Hr. assert (idx = 0) as -> by lia.
      destruct (matches t spec r && negb (claimed t before r)) eqn:Hsel;
        [|done].
      apply andb_prop in Hsel as [_ Hcl]. apply negb_true_iff in Hcl.
      by apply (inv_unlabeled _ _ _ Hinv). }
  simpl. eexists. split; [done|].
  assert (∀ r, r < num_rows t →
            nulls' !! r
            = Some (negb (claimed t before r) && negb (matches t spec r)))
    as Hnulls'.
  { intros r Hr. unfold nulls'. rewrite lookup_zip_with. unfold np_mask.
    rewrite (np_mask_lookup t before st spec c m r) by done.
    rewrite (inv_nulls _ _ _ Hinv) by done. simpl.
    by destruct (matches t spec r), (claimed t before r). }
  split; simpl.
  - unfold nulls'. rewrite length_zip_with. lia.
  - done.
  - intros r Hr. rewrite Hnulls' by done. rewrite claimed_app. simpl.
    rewrite orb_false_r. by rewrite negb_orb.
  - intros r Hr. rewrite claimed_app. simpl. rewrite orb_false_r.
    intros [Hcl Hma]%orb_false_elim. rewrite Hind by done.
    rewrite Hma. simpl. by apply (inv_unlabeled _ _ _ Hinv).
  - intros r i x Hr. rewrite first_match_snoc, Hind by done.
    destruct (first_match t before r) as [found|] eqn:Hf.
    + intros [= ->].
      assert (claimed t before r = true) as ->.
      { apply not_false_is_true. intros Hcl%claimed_first_match. congruence. }
      rewrite andb_false_r.
      destruct (inv_labeled _ _ _ Hinv r i x Hr Hf) as (k & Hk & Hv).
      exists k. eauto.
    + apply claimed_first_match in Hf. rewrite Hf.
      destruct (matches t spec r); [|done]. intros [= <- <-]. simpl.
      exists idx. done.
  - rewrite Hvals, used_rules_snoc, decide_False by done.
    by rewrite fmap_app.
  - rewrite length_app. simpl. lia.
  - rewrite pattern_errors_snoc. unfold pattern_error. rewrite Hc. simpl.
    rewrite Hm. simpl. rewrite app_nil_r. apply Hinv.
Qed.

Lemma evaluator_contract_app t specs1 specs2 :
  evaluator_contract t (specs1 ++ specs2)
  ↔ evaluator_contract t specs1 ∧ evaluator_contract t specs2.
Proof.
  unfold evaluator_contract. rewrite forallb_app. apply andb_true_iff.
Qed.

Lemma initial_invariant t : loop_invariant t [] (initial_state t).
Proof.
  split; simpl.
  - apply length_replicate.
  - apply length_replicate.
  - intros r Hr. by apply lookup_replicate_2.
  - intros r Hr _. by apply lookup_replicate_2.
  - intros r i spec _. done.
  - done.
  - done.
  - done.
Qed.

Lemma run_loop_invariant t before st specs :
  evaluator_contract t specs →
  (Z.of_nat (length (before ++ specs)) < 2 ^ 31)%Z →
  loop_invariant t before st →
  ∃ st', run_loop t st specs = Ok st'
         ∧ loop_invariant t (before ++ specs) st'.
Proof.
  revert before st.
  induction specs as [|spec specs IH]; intros before st Hev Hfit Hinv.
  - exists st. by rewrite app_nil_r.
  - change (spec :: specs) with ([spec] ++ specs) in Hev.
    apply evaluator_contract_app in Hev as [Hev1 Hev2].
    unfold evaluator_contract in Hev1. simpl in Hev1.
    rewrite andb_true_r in Hev1.
    rewrite length_app in Hfit. simpl in Hfit.
    destruct (label_spec_step_invariant t before st spec Hev1)
      as (st1 & Hstep & Hinv1); [lia|done|].
    destruct (IH (before ++ [spec]) st1 Hev2) as (st' & Hrun & Hinv');
      [rewrite !length_app; simpl; lia|done|].
    exists st'. simpl. rewrite Hstep. simpl.
    by rewrite <- (assoc_L (++)) in Hinv'.
Qed.

Lemma invariant_labeled_row t specs st r :
  loop_invariant t specs st → r < num_rows t →
  nulls st !! r = Some false →
  ∃ i spec k, first_match t specs r = Some (i, spec)
              ∧ indices st !! r = Some (Z.of_nat k)
              ∧ values st !! k = Some (value spec).
Proof.
  intros Hinv Hr Hnull. rewrite (inv_nulls _ _ _ Hinv) in Hnull by done.
  destruct (first_match t specs r) as [[i spec]|] eqn:Hf.
  - destruct (inv_labeled _ _ _ Hinv r i spec Hr Hf) as (k & ? & ?).
    by exists i, spec, k.
  - apply claimed_first_match in Hf. rewrite Hf in Hnull. done.
Qed.

Lemma invariant_well_formed t specs st :
  loop_invariant t specs st → well_formed st.
Proof.
  intros Hinv. split.
  - rewrite (inv_values _ _ _ Hinv). apply first_seen_NoDup.
  - intros r Hnull.
    assert (r < num_rows t) as Hr.
    { apply lookup_lt_Some in Hnull.
      by rewrite (inv_nulls_length _ _ _ Hinv) in Hnull. }
    destruct (invariant_labeled_row t specs st r Hinv Hr Hnull)
      as (i & spec & k & _ & Hk & Hv).
    exists (Z.of_nat k). split; [done|].
    apply lookup_lt_Some in Hv. lia.
Qed.

Lemma from_arrays_well_formed st :
  length (nulls st) = length (indices st) → well_formed st →
  from_arrays (indices st) (values st) (nulls st)
  = Ok {| dict_indices := indices st; dictionary := values st;
          mask := nulls st |}.
Proof.
  intros Hlen [_ Hwf]. unfold from_arrays. rewrite decide_True by done.
  destruct (forallb _ _) eqn:Hall; [done|].
  exfalso. apply not_true_iff_false in Hall. apply Hall.
  apply forallb_forall. intros [i null] Hin.
  apply list_elem_of_In, list_elem_of_lookup in Hin as [r Hr].
  apply lookup_zip_with_Some in Hr as (i' & null' & [= <- <-] & Hi & Hn).
  unfold index_in_bounds. simpl. destruct null; [done|]. simpl.
  destruct (Hwf r Hn) as (j & Hj & Hbound).
  assert (j = i) as -> by congruence.
  apply andb_true_iff. split; apply bool_decide_eq_true; lia.
Qed.

(** The assembler under the evaluator's contract: the loop ends in a
    state that satisfies the invariant for the whole rule list, and that
    state is what is returned. *)
Lemma generate_label_column_invariant t specs :
  evaluator_contract t specs → fits_int32 specs →
  ∃ st, run_loop t (initial_state t) specs = Ok st
        ∧ loop_invariant t specs st
        ∧ _generate_label_column t specs
          = Ok ({| dict_indices := indices st; dictionary := values st;
                   mask := nulls st |}, errors st).
Proof.
  intros Hev Hfit.
  destruct (run_loop_invariant t [] (initial_state t) specs Hev Hfit
              (initial_invariant t)) as (st & Hrun & Hinv).
  exists st. split; [done|]. split; [done|].
  unfold _generate_label_column. rewrite Hrun. simpl.
  rewrite from_arrays_well_formed; [done| |by eapply invariant_well_formed].
  by rewrite (inv_nulls_length _ _ _ Hinv), (inv_indices_length _ _ _ Hinv).
Qed.

Lemma to_pylist_invariant t specs st r :
  loop_invariant t specs st → r < num_rows t →
  to_pylist {| dict_indices := indices st; dictionary := values st;
               mask := nulls st |} !! r
  = Some (value ∘ snd <$> first_match t specs r).
Proof.
  intros Hinv Hr. unfold to_pylist. simpl. rewrite lookup_zip_with.
  destruct (lookup_lt_is_Some_2 (indices st) r) as [i Hi].
  { by rewrite (inv_indices_length _ _ _ Hinv). }
  rewrite Hi. simpl. rewrite (inv_nulls _ _ _ Hinv) by done. simpl.
  destruct (first_match t specs r) as [[j spec]|] eqn:Hf; simpl.
  - assert (claimed t specs r = true) as ->.
    { apply not_false_is_true. intros Hcl%claimed_first_match. congruence. }
    simpl. destruct (inv_labeled _ _ _ Hinv r j spec Hr Hf) as (k & Hk & Hv).
    assert (i = Z.of_nat k) as -> by congruence.
    by rewrite Nat2Z.id, Hv.
  - apply claimed_first_match in Hf. by rewrite Hf.
Qed.

Lemma length_to_pylist_invariant t specs st :
  loop_invariant t specs st → length (to_pylist (array_of st)) = num_rows t.
Proof.
  intros Hinv. unfold to_pylist, array_of. simpl. rewrite length_zip_with.
  rewrite (inv_nulls_length _ _ _ Hinv), (inv_indices_length _ _ _ Hinv). lia.
Qed.

Lemma fits_int32_app_l specs1 specs2 :
  fits_int32 (specs1 ++ specs2) → fits_int32 specs1.
Proof. unfold fits_int32. rewrite length_app. lia. Qed.

(** The run on a rule list passes through the state reached after any
    initial segment of it. *)
Lemma run_loop_split t earlier later st :
  evaluator_contract t (earlier ++ later) → fits_int32 (earlier ++ later) →
  run_loop t (initial_state t) (earlier ++ later) = Ok st →
  ∃ st0, run_loop t (initial_state t) earlier = Ok st0
         ∧ loop_invariant t earlier st0
         ∧ run_loop t st0 later = Ok st.
Proof.
  intros [Hev _]%evaluator_contract_app Hfit%fits_int32_app_l Hrun.
  destruct (generate_label_column_invariant t earlier Hev Hfit)
    as (st0 & Hrun0 & Hinv0 & _).
  exists st0. split; [done|]. split; [done|].
  rewrite run_loop_app, Hrun0 in Hrun. done.
Qed.

(** C1. First match wins. When the evaluator honours its contract on the
    rules, the assembler returns, and the label of every row is the value
    of the first rule, in input order, whose condition is present,
    evaluates without error and whose mask selects the row; a row that no
    such rule selects is null. Moreover a row that has a label after an
    initial segment of the rules keeps that label to the end. *)
Theorem first_match_wins t specs :
  evaluator_contract t specs → fits_int32 specs →
  ∃ st,
    run_loop t (initial_state t) specs = Ok st
    ∧ _generate_label_column t specs = Ok (array_of st, errors st)
    ∧ length (to_pylist (array_of st)) = num_rows t
    ∧ (∀ r, r < num_rows t →
         to_pylist (array_of st) !! r
         = Some (match first_match t specs r with
                 | Some (_, spec) => Some (value spec)
                 | None => None
                 end))
    ∧ (∀ earlier later, specs = earlier ++ later →
         ∃ st0,
           run_loop t (initial_state t) earlier = Ok st0
           ∧ run_loop t st0 later = Ok st
           ∧ ∀ r v, to_pylist (array_of st0) !! r = Some (Some v) →
                    to_pylist (array_of st) !! r = Some (Some v)).
Proof.
  intros Hev Hfit.
  destruct (generate_label_column_invariant t specs Hev Hfit)
    as (st & Hrun & Hinv & Hgen).
  exists st. split; [done|]. split; [done|].
  split; [by eapply length_to_pylist_invariant|].
  split.
  - intros r Hr. unfold array_of.
    rewrite (to_pylist_invariant t specs st r Hinv Hr).
    by destruct (first_match t specs r) as [[i spec]|].
  - intros earlier later ->.
    destruct (run_loop_split t earlier later st Hev Hfit Hrun)
      as (st0 & Hrun0 & Hinv0 & Hrest).
    exists st0. split; [done|]. split; [done|].
    intros r v Hlabel.
    assert (r < num_rows t) as Hr.
    { apply lookup_lt_Some in Hlabel.
      by rewrite (length_to_pylist_invariant t earlier st0 Hinv0) in Hlabel. }
    unfold array_of in *.
    rewrite (to_pylist_invariant t earlier st0 r Hinv0 Hr) in Hlabel.
    rewrite (to_pylist_invariant t _ st r Hinv Hr).
    destruct (first_match t earlier r) as [[i spec]|] eqn:Hf; [|done].
    unfold first_match in *. rewrite (list_find_app_l _ _ _ _ _ Hf).
    done.
Qed.

(** C10. Well-formed output. After each rule, every row that is not null
    has an index below the current number of dictionary values and the
    dictionary values are pairwise distinct; the returned array has the
    same property, so that it never refers to a dictionary entry that
    does not exist. *)
Theorem output_well_formed t specs :
  evaluator_contract t specs → fits_int32 specs →
  (∀ earlier later, specs = earlier ++ later →
     ∃ st0, run_loop t (initial_state t) earlier = Ok st0 ∧ well_formed st0)
  ∧ ∃ array errs,
      _generate_label_column t specs = Ok (array, errs)
      ∧ NoDup (dictionary array)
      ∧ ∀ r, mask array !! r = Some false →
             ∃ i v, dict_indices array !! r = Some i
                    ∧ (0 ≤ i < Z.of_nat (length (dictionary array)))%Z
                    ∧ dictionary array !! Z.to_nat i = Some v.
Proof.
  intros Hev Hfit. split.
  - intros earlier later ->.
    apply evaluator_contract_app in Hev as [Hev _].
    apply fits_int32_app_l in Hfit.
    destruct (generate_label_column_invariant t earlier Hev Hfit)
      as (st0 & Hrun0 & Hinv0 & _).
    exists st0. split; [done|]. by eapply invariant_well_formed.
  - destruct (generate_label_column_invariant t specs Hev Hfit)
      as (st & Hrun & Hinv & Hgen).
    destruct (invariant_well_formed t specs st Hinv) as [Hnodup Hidx].
    eexists _, _. split; [done|]. simpl. split; [done|].
    intros r Hnull. destruct (Hidx r Hnull) as (i & Hi & Hbound).
    destruct (lookup_lt_is_Some_2 (values st) (Z.to_nat i)) as [v Hv]; [lia|].
    by exists i, v.
Qed.

(** C2. Batch error policy. A rule whose condition raises a pattern error
    adds its message to the error list and the loop goes on: the assembler
    returns one message for each such rule, in rule order, and the rows
    are labelled by the rules that did evaluate. When that list is not
    empty, [render] returns it and writes no table. *)
Theorem batch_error_policy t specs :
  evaluator_contract t specs → fits_int32 specs →
  ∃ array,
    _generate_label_column t specs = Ok (array, pattern_errors t specs)
    ∧ length (pattern_errors t specs)
      = length (filter (λ spec, is_Some (pattern_error t spec)) specs)
    ∧ (∀ r, r < num_rows t →
         to_pylist array !! r
         = Some (value ∘ snd <$> first_match t specs r))
    ∧ (∀ name settings,
         name ≠ EmptyString → pattern_errors t specs ≠ [] →
         render t {| colname := name; labels := specs |} settings
         = Ok (None, pattern_errors t specs)).
Proof.
  intros Hev Hfit.
  destruct (generate_label_column_invariant t specs Hev Hfit)
    as (st & Hrun & Hinv & Hgen).
  rewrite (inv_errors _ _ _ Hinv) in Hgen.
  eexists. split; [done|]. split; [|split].
  - unfold pattern_errors. clear. induction specs as [|spec specs IH]; [done|].
    simpl. rewrite filter_cons.
    destruct (pattern_error t spec); simpl; [f_equal|]; apply IH.
  - intros r Hr. by apply to_pylist_invariant.
  - intros name settings Hname Herr. unfold render. simpl.
    rewrite decide_False by done. rewrite Hgen. simpl.
    by rewrite decide_True.
Qed.

(** The rows of a rule's effective selection are the rows it wins. *)
Lemma effective_rows_first_match t specs i spec r :
  specs !! i = Some spec →
  r ∈ effective_rows t (take i specs) spec →
  r < num_rows t ∧ first_match t specs r = Some (i, spec).
Proof.
  intros Hi. unfold effective_rows.
  rewrite list_elem_of_filter, elem_of_seq.
  intros [[Hma Hcl]%andb_prop_elim [_ Hr]]. split; [lia|].
  apply negb_prop_elim, Is_true_false_1 in Hcl.
  apply claimed_first_match in Hcl.
  unfold first_match in *. apply list_find_Some. split_and!; [done..|].
  intros j y Hj Hlt.
  apply list_find_None in Hcl. rewrite Forall_lookup in Hcl.
  apply (Hcl j). by rewrite lookup_take_lt.
Qed.

Lemma used_rules_step t before st spec st' :
  loop_invariant t before st →
  loop_invariant t (before ++ [spec]) st' →
  values st'
  = if decide (effective_rows t before spec = []) then values st
    else if decide (value spec ∈ values st) then values st
         else values st ++ [value spec].
Proof.
  intros Hinv Hinv'.
  rewrite (inv_values _ _ _ Hinv'), (inv_values _ _ _ Hinv), used_rules_snoc.
  case_decide.
  - by rewrite app_nil_r.
  - rewrite fmap_app. simpl. by rewrite first_seen_snoc.
Qed.

(** C3. Dictionary contents and order. The dictionary lists, without
    repetition and each at its first place, the values of the rules whose
    effective selection is not empty, in the order of those rules. At each
    rule the unlabeled rows are those that no earlier rule selected; a
    rule whose effective selection is empty leaves the dictionary as it
    is, any other rule adds its value at the end unless it is there. *)
Theorem dictionary_contents_and_order t specs :
  evaluator_contract t specs → fits_int32 specs →
  ∃ array errs,
    _generate_label_column t specs = Ok (array, errs)
    ∧ dictionary array = first_seen (value <$> used_rules t specs)
    ∧ (∀ earlier spec later, specs = earlier ++ spec :: later →
         ∃ st0 st1,
           run_loop t (initial_state t) earlier = Ok st0
           ∧ label_spec_step t st0 spec = Ok st1
           ∧ (∀ r, r < num_rows t →
                nulls st0 !! r = Some (negb (claimed t earlier r)))
           ∧ values st1
             = if decide (effective_rows t earlier spec = []) then values st0
               else if decide (value spec ∈ values st0) then values st0
                    else values st0 ++ [value spec]).
Proof.
  intros Hev Hfit.
  destruct (generate_label_column_invariant t specs Hev Hfit)
    as (st & Hrun & Hinv & Hgen).
  eexists _, _. split; [done|]. simpl. split; [apply Hinv|].
  intros earlier spec later ->.
  apply evaluator_contract_app in Hev as [Hev0 Hev1].
  pose proof (fits_int32_app_l _ _ Hfit) as Hfit0.
  destruct (generate_label_column_invariant t earlier Hev0 Hfit0)
    as (st0 & Hrun0 & Hinv0 & _).
  change (spec :: later) with ([spec] ++ later) in Hev1.
  apply evaluator_contract_app in Hev1 as [Hev1 _].
  unfold evaluator_contract in Hev1. simpl in Hev1.
  rewrite andb_true_r in Hev1.
  destruct (label_spec_step_invariant t earlier st0 spec Hev1)
    as (st1 & Hstep & Hinv1); [unfold fits_int32 in Hfit0; lia|done|].
  exists st0, st1. split; [done|]. split; [done|].
  split; [apply Hinv0|]. by eapply used_rules_step.
Qed.

Lemma NoDup_filter_eq (l : list string) (v : string) :
  NoDup l → v ∈ l → filter (v =.) l = [v].
Proof.
  induction 1 as [|x l Hx Hnd IH]; [by intros ?%elem_of_nil|].
  rewrite filter_cons. intros [->|Hin]%elem_of_cons.
  - rewrite decide_True by done. f_equal.
    apply elem_of_nil_inv. intros y [<- Hy]%list_elem_of_filter. done.
  - rewrite decide_False; [by apply IH|]. by intros <-.
Qed.

(** C4. Deduplication. Two rules that carry the same value and both have
    a non-empty effective selection share one dictionary entry: the value
    occurs once in the dictionary, at some position [k], and every row
    that either rule claims is non-null with index [k]. *)
Theorem deduplication t specs i j a b :
  evaluator_contract t specs → fits_int32 specs →
  i ≠ j → specs !! i = Some a → specs !! j = Some b →
  value a = value b →
  effective_rows t (take i specs) a ≠ [] →
  effective_rows t (take j specs) b ≠ [] →
  ∃ array errs k,
    _generate_label_column t specs = Ok (array, errs)
    ∧ filter (value a =.) (dictionary array) = [value a]
    ∧ dictionary array !! k = Some (value a)
    ∧ ∀ r, r ∈ effective_rows t (take i specs) a
           ∨ r ∈ effective_rows t (take j specs) b →
           mask array !! r = Some false
           ∧ dict_indices array !! r = Some (Z.of_nat k).
Proof.
  intros Hev Hfit _ Hi Hj Hval Heffa _.
  destruct (generate_label_column_invariant t specs Hev Hfit)
    as (st & Hrun & Hinv & Hgen).
  destruct (invariant_well_formed t specs st Hinv) as [Hnodup _].
  destruct (effective_rows t (take i specs) a) as [|r0 rows] eqn:Hrows;
    [done|].
  destruct (effective_rows_first_match t specs i a r0 Hi) as [Hr0 Hf0].
  { rewrite Hrows. apply list_elem_of_here. }
  destruct (inv_labeled _ _ _ Hinv r0 i a Hr0 Hf0) as (k & _ & Hk).
  exists (array_of st), (errors st), k. split; [done|]. simpl.
  split; [|split; [done|]].
  { apply NoDup_filter_eq; [done|]. apply list_elem_of_lookup. eauto. }
  assert (∀ r n spec, r < num_rows t →
            first_match t specs r = Some (n, spec) →
            value spec = value a →
            nulls st !! r = Some false ∧ indices st !! r = Some (Z.of_nat k))
    as Hrow.
  { intros r n spec Hr Hf Hv. split.
    - rewrite (inv_nulls _ _ _ Hinv) by done.
      assert (claimed t specs r = true) as ->; [|done].
      apply not_false_is_true. intros Hcl%claimed_first_match. congruence.
    - destruct (inv_labeled _ _ _ Hinv r n spec Hr Hf) as (k' & Hk' & Hv').
      rewrite Hv in Hv'.
      by rewrite (NoDup_lookup _ _ _ _ Hnodup Hv' Hk) in Hk'. }
  rewrite <- Hrows.
  intros r [Hin|Hin].
  - destruct (effective_rows_first_match t specs i a r Hi Hin) as [Hr Hf].
    by eapply Hrow.
  - destruct (effective_rows_first_match t specs j b r Hj Hin) as [Hr Hf].
    by eapply Hrow.
Qed.

(** *** Tables without rows *)

Lemma step_without_rows t st spec :
  num_rows t = 0 → evaluates t spec = true → nulls st = [] →
  label_spec_step t st spec
  = Ok {| errors := errors st ++ option_list (pattern_error t spec);
          nulls := nulls st; values := values st; indices := indices st |}.
Proof.
  intros Hrows Hev Hnulls.
  unfold label_spec_step, evaluates, pattern_error in *.
  destruct (condition spec) as [c|]; simpl.
  2:{ by rewrite app_nil_r, state_eta. }
  destruct (condition_to_mask t c) as [m|e].
  2:{ by destruct e. }
  apply bool_decide_eq_true in Hev. rewrite Hrows in Hev.
  apply nil_length_inv in Hev as ->. rewrite Hnulls. simpl.
  by rewrite app_nil_r, <- Hnulls, state_eta.
Qed.

Lemma run_loop_without_rows t st specs :
  num_rows t = 0 → evaluator_contract t specs → nulls st = [] →
  run_loop t st specs
  = Ok {| errors := errors st ++ pattern_errors t specs;
          nulls := nulls st; values := values st; indices := indices st |}.
Proof.
  intros Hrows. revert st.
  induction specs as [|spec specs IH]; intros st Hev Hnulls; simpl.
  - by rewrite app_nil_r, state_eta.
  - change (spec :: specs) with ([spec] ++ specs) in Hev.
    apply evaluator_contract_app in Hev as [Hev1 Hev2].
    unfold evaluator_contract in Hev1. simpl in Hev1.
    rewrite andb_true_r in Hev1.
    rewrite (step_without_rows t st spec Hrows Hev1 Hnulls). simpl.
    rewrite IH by done. simpl.
    rewrite <- (assoc_L (++)). by destruct (pattern_error t spec).
Qed.

(** C5, as the code has it. On a table without rows the assembler returns
    a dictionary array of length 0 with an empty dictionary, whatever the
    rules; the errors it returns are the pattern errors of the rules, so
    there are none exactly when no condition raises one. *)
Theorem zero_rows t specs :
  num_rows t = 0 → evaluator_contract t specs →
  _generate_label_column t specs
  = Ok ({| dict_indices := []; dictionary := []; mask := [] |},
        pattern_errors t specs)
  ∧ (pattern_errors t specs = []
     ↔ ∀ spec, spec ∈ specs → pattern_error t spec = None).
Proof.
  intros Hrows Hev. split.
  - unfold _generate_label_column.
    rewrite (run_loop_without_rows t _ specs Hrows Hev);
      [|by simpl; rewrite Hrows].
    simpl. by rewrite Hrows.
  - unfold pattern_errors. clear. induction specs as [|spec specs IH].
    + split; [|done]. by intros _ spec ?%elem_of_nil.
    + simpl. destruct (pattern_error t spec) eqn:Hpe.
      * split; [done|]. intros Hall.
        specialize (Hall spec (list_elem_of_here _ _)). congruence.
      * rewrite IH. split.
        -- intros Hall x [->|?]%elem_of_cons; auto.
        -- intros Hall x Hx. apply Hall. by apply list_elem_of_further.
Qed.

(** *** The column merger and the entry point *)

(** C6. With an empty target column name [render] writes the input table
    as it is and returns no error; this holds for every evaluator and
    every sanitizer, which are not called. *)
Theorem empty_colname_is_no_op t specs settings :
  render t {| colname := EmptyString; labels := specs |} settings
  = Ok (Some t, []).
Proof. reflexivity. Qed.

Lemma index_elem_of (l : list string) (x : string) :
  x ∈ l →
  ∃ i, index l x = Ok i ∧ l !! i = Some x
       ∧ ∀ j, j < i → l !! j ≠ Some x.
Proof.
  intros Hin. unfold index.
  destruct (list_find (x =.) l) as [[i y]|] eqn:Hf.
  - apply list_find_Some in Hf as (Hi & <- & Hleast).
    exists i. split; [done|]. split; [done|].
    intros j Hj Hx. by apply (Hleast j x).
  - apply list_find_None in Hf. rewrite Forall_forall in Hf.
    by destruct (Hf x Hin).
Qed.

(** C7. Replacing a column in place. When [name] names a column of the
    table, merging an array of the table's length under that name
    succeeds without warnings; the array takes the place of the first
    column of that name, and the number of rows, the column names and
    every other column are those of the input table. *)
Theorem replace_column_in_place t name data settings :
  name ∈ column_names t → len data = num_rows t →
  ∃ i t',
    _add_column t name data settings = Ok (t', [])
    ∧ column_names t !! i = Some name
    ∧ (∀ j, j < i → column_names t !! j ≠ Some name)
    ∧ columns t' !! i = Some (name, data)
    ∧ (∀ j, j ≠ i → columns t' !! j = columns t !! j)
    ∧ column_names t' = column_names t
    ∧ num_rows t' = num_rows t.
Proof.
  intros Hin Hlen.
  destruct (index_elem_of _ _ Hin) as (i & Hindex & Hi & Hfirst).
  assert (i < length (columns t)) as Hlt.
  { apply lookup_lt_Some in Hi. unfold column_names in Hi.
    by rewrite length_fmap in Hi. }
  exists i, {| num_rows := num_rows t;
               columns := <[i := (name, data)]> (columns t) |}.
  split_and!; simpl; try done.
  - unfold _add_column, set_column. rewrite decide_True by done.
    rewrite Hindex. simpl. by rewrite !decide_True by done.
  - by apply list_lookup_insert_eq.
  - intros j Hj. by apply list_lookup_insert_ne.
  - unfold column_names. simpl. rewrite list_fmap_insert. simpl.
    by apply list_insert_id.
Qed.

(** C8. Naming warnings are advisory. With a non-empty target name that
    names no column of the table and rules without pattern errors,
    [render] writes the input table with the label column appended at the
    end under the name the sanitizer returns, and returns the
    sanitizer's warnings. *)
Theorem naming_warnings_are_advisory t specs name settings clean warnings :
  evaluator_contract t specs → fits_int32 specs →
  pattern_errors t specs = [] →
  name ≠ EmptyString → name ∉ column_names t →
  gen_unique_clean_colnames_and_warn [name] (column_names t) settings
  = ([clean], warnings) →
  ∃ array,
    _generate_label_column t specs = Ok (array, [])
    ∧ render t {| colname := name; labels := specs |} settings
      = Ok (Some {| num_rows := num_rows t;
                    columns := columns t ++ [(clean, DictArray array)] |},
            warnings).
Proof.
  intros Hev Hfit Hnoerr Hname Hnew Hclean.
  destruct (generate_label_column_invariant t specs Hev Hfit)
    as (st & Hrun & Hinv & Hgen).
  rewrite (inv_errors _ _ _ Hinv), Hnoerr in Hgen.
  eexists. split; [done|].
  unfold render. simpl. rewrite decide_False by done. rewrite Hgen. simpl.
  unfold _add_column. rewrite decide_False by done. rewrite Hclean.
  unfold append_column. simpl.
  rewrite decide_True by apply (inv_indices_length _ _ _ Hinv). done.
Qed.

(** *** The index-0 shortcut *)

Lemma and_selects_nulls (a b c : list bool) :
  np.and_ a b = Ok c → length c = length b →
  ∀ r, c !! r = Some true → b !! r = Some true.
Proof.
  unfold np.and_. case_decide as Hlen.
  - intros [= <-] _ r (x & y & Hxy & _ & Hy)%lookup_zip_with_Some.
    symmetry in Hxy. apply andb_prop in Hxy as [_ ->]. done.
  - destruct a as [|x [|x' a]].
    + destruct b as [|y [|y' b]]; simpl in *; try done.
      intros [= <-]. simpl. lia.
    + intros [= <-] _ r. rewrite list_lookup_fmap.
      destruct (b !! r) as [y|]; simpl; [|done].
      intros [= Hxy]. apply andb_prop in Hxy as [_ ->]. done.
    + destruct b as [|y [|y' b]]; simpl in *; try done.
      intros [= <-]. simpl. rewrite length_fmap. simpl in Hlen. lia.
Qed.

Lemma setitem_unchanged {A} (arr : list A) (mask : list bool) (v : A) :
  length mask = length arr →
  (∀ r, mask !! r = Some true → arr !! r = Some v) →
  np.setitem arr mask v = Ok arr.
Proof.
  intros Hlen Hsel. rewrite setitem_Ok by done. f_equal.
  apply list_eq. intros r. rewrite lookup_zip_with.
  destruct (arr !! r) as [x|] eqn:Hx; simpl; [|done].
  destruct (mask !! r) as [[]|] eqn:Hm; simpl.
  - rewrite (Hsel r Hm) in Hx. congruence.
  - done.
  - apply lookup_ge_None in Hm. apply lookup_lt_Some in Hx. lia.
Qed.

Lemma setitem_Raise {A} (arr : list A) (mask : list bool) (v : A) :
  length mask ≠ length arr → np.setitem arr mask v = Raise IndexError.
Proof. intros Hlen. unfold np.setitem. by rewrite decide_False. Qed.

Lemma label_spec_step_naive_eq t st spec :
  null_rows_zero st →
  label_spec_step t st spec = label_spec_step_naive t st spec.
Proof.
  intros [Hlen Hzero]. unfold label_spec_step, label_spec_step_naive.
  destruct (condition spec) as [c|]; [|done].
  destruct (condition_to_mask t c) as [m|e]; [|done].
  destruct (np.and_ m (nulls st)) as [np_mask|e] eqn:Hand; simpl; [|done].
  destruct (np.any np_mask); simpl; [|done].
  assert (∀ idx vals',
    (np.setitem (nulls st) np_mask false ≫= λ nulls',
       (if decide (0 < idx)
        then np.setitem (indices st) np_mask (np.int32 (Z.of_nat idx))
        else Ok (indices st)) ≫= λ indices',
       Ok {| errors := errors st; nulls := nulls'; values := vals';
             indices := indices' |})
    = (np.setitem (nulls st) np_mask false ≫= λ nulls',
       np.setitem (indices st) np_mask (np.int32 (Z.of_nat idx))
       ≫= λ indices',
       Ok {| errors := errors st; nulls := nulls'; values := vals';
             indices := indices' |})) as Hsame.
  { intros idx vals'.
    destruct (decide (length np_mask = length (nulls st))) as [Hml|Hml].
    2:{ by rewrite !(setitem_Raise (nulls st)). }
    case_decide as Hidx; [done|].
    assert (idx = 0) as -> by lia.
    rewrite (setitem_unchanged (indices st) np_mask); [done|lia|].
    intros r Hr. apply Hzero.
    by apply (and_selects_nulls m (nulls st) np_mask Hand Hml). }
  destruct (index (values st) (value spec)); apply Hsame.
Qed.

Lemma label_spec_step_naive_null_rows_zero t st spec st' :
  null_rows_zero st → label_spec_step_naive t st spec = Ok st' →
  null_rows_zero st'.
Proof.
  intros [Hlen Hzero]. unfold label_spec_step_naive.
  destruct (condition spec) as [c|]; [|by intros [= <-]].
  destruct (condition_to_mask t c) as [m|e].
  2:{ destruct e; try done. by intros [= <-]. }
  destruct (np.and_ m (nulls st)) as [np_mask|e]; simpl; [|done].
  destruct (np.any np_mask); simpl; [|by intros [= <-]].
  assert (∀ idx vals',
    (np.setitem (nulls st) np_mask false ≫= λ nulls',
       np.setitem (indices st) np_mask (np.int32 (Z.of_nat idx))
       ≫= λ indices',
       Ok {| errors := errors st; nulls := nulls'; values := vals';
             indices := indices' |}) = Ok st' →
    null_rows_zero st') as Hstep.
  { intros idx vals'.
    destruct (decide (length np_mask = length (nulls st))) as [Hml|Hml].
    2:{ by rewrite (setitem_Raise (nulls st)). }
    rewrite !setitem_Ok by lia. simpl. intros [= <-].
    split; simpl.
    - rewrite !length_zip_with. lia.
    - intros r (x & sel & Hx & Hn & Hsel)%lookup_zip_with_Some.
      rewrite lookup_zip_with, Hsel.
      destruct sel; [done|]. subst x. rewrite (Hzero r Hn). done. }
  destruct (index (values st) (value spec)); apply Hstep.
Qed.

Lemma run_loop_naive_eq t st specs :
  null_rows_zero st → run_loop t st specs = run_loop_naive t st specs.
Proof.
  revert st. induction specs as [|spec specs IH]; intros st Hzero; [done|].
  simpl. rewrite (label_spec_step_naive_eq t st spec Hzero).
  destruct (label_spec_step_naive t st spec) as [st'|e] eqn:Hstep; [|done].
  simpl. apply IH. by eapply label_spec_step_naive_null_rows_zero.
Qed.

Lemma initial_null_rows_zero t : null_rows_zero (initial_state t).
Proof.
  split; simpl.
  - unfold np.ones, np.zeros. by rewrite !length_replicate.
  - intros r Hr. apply lookup_replicate_2.
    apply lookup_lt_Some in Hr. unfold np.ones in Hr.
    by rewrite length_replicate in Hr.
Qed.

(** C9. The index-0 shortcut preserves behaviour. The assembler, which
    leaves the zero-initialised index array alone when the resolved index
    is 0, returns on every input what the variant returns that stores the
    resolved index for every selected row: the same indices, null bitmap,
    dictionary and errors, or the same exception. *)
Theorem index_zero_shortcut t specs :
  _generate_label_column t specs = _generate_label_column_naive t specs.
Proof.
  unfold _generate_label_column, _generate_label_column_naive.
  by rewrite (run_loop_naive_eq t _ specs (initial_null_rows_zero t)).
Qed.

End properties.

(** * The test suite, and the theorems at its tables *)

Example test_match_condition :
  render table_A123 {| colname := "B"; labels := rules_match |} tt
  = Ok (Some {| num_rows := 3;
                columns :=
                  columns table_A123
                  ++ [("B", DictArray {| dict_indices := [0; 0; 0]%Z;
                                         dictionary := ["a"];
                                         mask := [true; false; true] |})] |},
        []).
Proof. reflexivity. Qed.

Example test_double_match_first_takes_priority :
  (λ res, match res with
          | Ok (array, _) => Some (to_pylist array)
          | Raise _ => None
          end) (_generate_label_column table_A123 rules_double_match)
  = Some [None; Some "a"; Some "b"].
Proof. reflexivity. Qed.

Example test_overwrite_column :
  render table_A123_B234 {| colname := "A"; labels := rules_match |} tt
  = Ok (Some {| num_rows := 3;
                columns :=
                  [("A", DictArray {| dict_indices := [0; 0; 0]%Z;
                                      dictionary := ["a"];
                                      mask := [true; false; true] |});
                   ("B", Int64Array [Some 2; Some 3; Some 4]%Z)] |},
        []).
Proof. reflexivity. Qed.

Lemma first_match_wins_witness :
  evaluator_contract table_A123 rules_double_match
  ∧ fits_int32 rules_double_match
  ∧ ∃ st,
      run_loop table_A123 (initial_state table_A123) rules_double_match
      = Ok st
      ∧ to_pylist (array_of st) !! 0 = Some None
      ∧ to_pylist (array_of st) !! 1 = Some (Some "a")
      ∧ to_pylist (array_of st) !! 2 = Some (Some "b").
Proof.
  split; [reflexivity|]. split; [reflexivity|].
  destruct (first_match_wins table_A123 rules_double_match)
    as (st & Hrun & _ & _ & Hrows & _); [reflexivity..|].
  exists st. split; [exact Hrun|].
  split; [|split].
  - apply (Hrows 0). simpl. lia.
  - apply (Hrows 1). simpl. lia.
  - apply (Hrows 2). simpl. lia.
Defined.

Lemma output_well_formed_witness :
  evaluator_contract table_A123 rules_double_match
  ∧ fits_int32 rules_double_match
  ∧ ∃ array errs,
      _generate_label_column table_A123 rules_double_match
      = Ok (array, errs)
      ∧ NoDup (dictionary array).
Proof.
  split; [reflexivity|]. split; [reflexivity|].
  destruct (output_well_formed table_A123 rules_double_match)
    as (_ & array & errs & Hgen & Hnodup & _); [reflexivity..|].
  exists array, errs. split; [exact Hgen|exact Hnodup].
Defined.

Lemma batch_error_policy_witness :
  evaluator_contract table_text rules_regex_errors
  ∧ fits_int32 rules_regex_errors
  ∧ ∃ array,
      _generate_label_column table_text rules_regex_errors
      = Ok (array,
            [invalidRegex "*" "no argument for repetition operator: *";
             invalidRegex "+" "no argument for repetition operator: +"])
      ∧ render table_text
               {| colname := "B"; labels := rules_regex_errors |} tt
        = Ok (None,
              [invalidRegex "*" "no argument for repetition operator: *";
               invalidRegex "+" "no argument for repetition operator: +"]).
Proof.
  split; [reflexivity|]. split; [reflexivity|].
  destruct (batch_error_policy table_text rules_regex_errors)
    as (array & Hgen & _ & _ & Hrender); [reflexivity..|].
  exists array. split; [exact Hgen|].
  apply (Hrender "B" tt); discriminate.
Defined.

Lemma dictionary_contents_and_order_witness :
  evaluator_contract table_A123 rules_unused_first
  ∧ fits_int32 rules_unused_first
  ∧ ∃ array errs,
      _generate_label_column table_A123 rules_unused_first
      = Ok (array, errs)
      ∧ dictionary array = ["a"; "b"].
Proof.
  split; [reflexivity|]. split; [reflexivity|].
  destruct (dictionary_contents_and_order table_A123 rules_unused_first)
    as (array & errs & Hgen & Hdict & _); [reflexivity..|].
  exists array, errs. split; [exact Hgen|exact Hdict].
Defined.

Lemma deduplication_witness :
  evaluator_contract table_A123 rules_duplicate_value
  ∧ fits_int32 rules_duplicate_value
  ∧ effective_rows table_A123 (take 0 rules_duplicate_value)
                   (rule "a" (Some (EQ "A" 2))) = [1]
  ∧ effective_rows table_A123 (take 1 rules_duplicate_value)
                   (rule "a" (Some (EQ "A" 3))) = [2]
  ∧ ∃ array errs k,
      _generate_label_column table_A123 rules_duplicate_value
      = Ok (array, errs)
      ∧ filter ("a" =.) (dictionary array) = ["a"]
      ∧ dictionary array !! k = Some "a"
      ∧ dict_indices array !! 1 = Some (Z.of_nat k)
      ∧ dict_indices array !! 2 = Some (Z.of_nat k).
Proof.
  split; [reflexivity|]. split; [reflexivity|].
  split; [reflexivity|]. split; [reflexivity|].
  destruct (deduplication table_A123 rules_duplicate_value 0 1
              (rule "a" (Some (EQ "A" 2))) (rule "a" (Some (EQ "A" 3))))
    as (array & errs & k & Hgen & Hone & Hk & Hrows);
    [reflexivity|reflexivity|lia|reflexivity|reflexivity|reflexivity
    |discriminate|discriminate|].
  exists array, errs, k. split; [exact Hgen|]. split; [exact Hone|].
  split; [exact Hk|]. split.
  - apply (Hrows 1). left. apply list_elem_of_here.
  - apply (Hrows 2). right. apply list_elem_of_here.
Defined.

Lemma zero_rows_witness :
  num_rows table_empty = 0
  ∧ evaluator_contract table_empty rules_double_match
  ∧ _generate_label_column table_empty rules_double_match
    = Ok ({| dict_indices := []; dictionary := []; mask := [] |}, []).
Proof.
  split; [reflexivity|]. split; [reflexivity|].
  apply (zero_rows table_empty rules_double_match); reflexivity.
Defined.

(** C5 as stated fails: with an invalid pattern among the rules, a table
    without rows still yields the pattern error, and [render] writes
    nothing. *)
Lemma zero_rows_pattern_error :
  num_rows table_empty = 0
  ∧ evaluator_contract table_empty rules_one_regex_error
  ∧ ¬ (∃ array,
         _generate_label_column table_empty rules_one_regex_error
         = Ok (array, []))
  ∧ render table_empty
           {| colname := "B"; labels := rules_one_regex_error |} tt
    = Ok (None, [invalidRegex "*" "no argument for repetition operator: *"]).
Proof.
  split; [reflexivity|]. split; [reflexivity|]. split; [|reflexivity].
  intros [array Hgen]. vm_compute in Hgen. discriminate.
Qed.

Lemma replace_column_in_place_witness :
  "A" ∈ column_names table_A123_B234
  ∧ len (StringArray [None; Some "a"; None]) = num_rows table_A123_B234
  ∧ ∃ t',
      _add_column (H := test_cjwmodule) table_A123_B234 "A"
                  (StringArray [None; Some "a"; None]) tt
      = Ok (t', [])
      ∧ columns t' !! 0 = Some ("A", StringArray [None; Some "a"; None])
      ∧ columns t' !! 1 = columns table_A123_B234 !! 1
      ∧ column_names t' = ["A"; "B"].
Proof.
  split; [apply list_elem_of_here|]. split; [reflexivity|].
  destruct (replace_column_in_place (H := test_cjwmodule) table_A123_B234 "A"
              (StringArray [None; Some "a"; None]) tt)
    as (i & t' & Hadd & Hi & Hfirst & Hset & Hother & Hnames & _);
    [apply list_elem_of_here|reflexivity|].
  assert (i = 0) as ->.
  { destruct i as [|i]; [reflexivity|].
    exfalso. apply (Hfirst 0); [lia|reflexivity]. }
  exists t'. split; [exact Hadd|]. split; [exact Hset|].
  split; [apply Hother; lia|exact Hnames].
Defined.

Lemma naming_warnings_are_advisory_witness :
  evaluator_contract table_A123 rules_match
  ∧ fits_int32 rules_match
  ∧ pattern_errors table_A123 rules_match = []
  ∧ (colname_B_cr ≠ EmptyString)
  ∧ (colname_B_cr ∉ column_names table_A123)
  ∧ ∃ array,
      render table_A123 {| colname := colname_B_cr; labels := rules_match |}
             tt
      = Ok (Some {| num_rows := 3;
                    columns :=
                      columns table_A123 ++ [("B", DictArray array)] |},
            [ {| msg_id := "util.colnames.warnings.ascii_cleaned";
                 msg_arguments :=
                   [("n_columns", ArgInt 1); ("first_colname", ArgStr "B")];
                 msg_source := "cjwmodule" |} ]).
Proof.
  assert (colname_B_cr ∉ column_names table_A123) as Hnew.
  { intros Hin. apply list_elem_of_In in Hin. simpl in Hin.
    destruct Hin as [Hin|[]]. discriminate. }
  split; [reflexivity|]. split; [reflexivity|]. split; [reflexivity|].
  split; [discriminate|]. split; [exact Hnew|].
  destruct (naming_warnings_are_advisory (H := test_cjwmodule)
              table_A123 rules_match colname_B_cr tt "B"
              [ {| msg_id := "util.colnames.warnings.ascii_cleaned";
                   msg_arguments :=
                     [("n_columns", ArgInt 1);
                      ("first_colname", ArgStr "B")];
                   msg_source := "cjwmodule" |} ])
    as (array & _ & Hrender);
    [reflexivity|reflexivity|reflexivity|discriminate|exact Hnew
    |reflexivity|].
  exists array. exact Hrender.
Defined.

(** * Further properties of the three functions *)

Section further_properties.
Context `{!Cjwmodule}.
Implicit Types (t : Table) (st : LoopState) (spec : LabelSpec)
               (specs before after : list LabelSpec) (r : nat).

(** ** Rules without a condition *)

Lemma run_loop_present t st specs :
  run_loop t st specs
  = run_loop t st (filter (λ spec, is_Some (condition spec)) specs).
Proof.
  revert st. induction specs as [|spec specs IH]; intros st; [done|].
  rewrite filter_cons. destruct (condition spec) as [c|] eqn:Hc.
  - rewrite decide_True by eauto. simpl.
    destruct (label_spec_step t st spec) as [st'|e]; simpl; [apply IH|done].
  - rewrite decide_False by (by intros [? ?]).
    simpl. unfold label_spec_step. rewrite Hc. simpl. apply IH.
Qed.

(** X1. A rule whose condition is absent is inert: the assembler and
    [render] return, on every input, what they return on the rule list
    without those rules. *)
Theorem absent_conditions_are_inert t specs name settings :
  _generate_label_column t specs
  = _generate_label_column t (filter (λ spec, is_Some (condition spec)) specs)
  ∧ render t {| colname := name; labels := specs |} settings
    = render t {| colname := name;
                  labels := filter (λ spec, is_Some (condition spec)) specs |}
             settings.
Proof.
  assert (_generate_label_column t specs
          = _generate_label_column t
              (filter (λ spec, is_Some (condition spec)) specs)) as Hgen.
  { unfold _generate_label_column. by rewrite <- run_loop_present. }
  split; [done|]. unfold render. simpl. by rewrite <- Hgen.
Qed.

Lemma from_arrays_all_null t :
  from_arrays (np.zeros (num_rows t)) [] (np.ones (num_rows t))
  = Ok (all_null t).
Proof.
  unfold from_arrays, np.zeros, np.ones.
  rewrite decide_True by (by rewrite !length_replicate).
  destruct (forallb _ _) eqn:Hall; [done|].
  exfalso. apply not_true_iff_false in Hall. apply Hall.
  apply forallb_forall. intros [i null] Hx%list_elem_of_In.
  apply elem_of_zip_r in Hx. simpl in Hx.
  by apply elem_of_replicate_inv in Hx as ->.
Qed.

(** X2. Without any rule that has a condition, in particular with no rule
    at all, the assembler returns no error and a column of the table's
    length in which every row is null, with an empty dictionary. *)
Theorem no_condition_all_null t specs :
  (∀ spec, spec ∈ specs → condition spec = None) →
  _generate_label_column t specs = Ok (all_null t, [])
  ∧ to_pylist (all_null t) = replicate (num_rows t) None.
Proof.
  intros Hnone. split.
  - unfold _generate_label_column. rewrite run_loop_present.
    replace (filter _ specs) with (@nil LabelSpec).
    + simpl. by rewrite from_arrays_all_null.
    + symmetry. apply elem_of_nil_inv.
      intros spec [[c Hc] Hin]%list_elem_of_filter.
      rewrite (Hnone spec Hin) in Hc. done.
  - unfold to_pylist, all_null, np.zeros, np.ones. simpl.
    by rewrite zip_with_replicate.
Qed.

(** ** Exceptions of the evaluator other than [re.error] *)

Lemma label_spec_step_total t st spec :
  evaluates t spec = true →
  length (nulls st) = num_rows t → length (indices st) = num_rows t →
  ∃ st', label_spec_step t st spec = Ok st'
         ∧ length (nulls st') = num_rows t
         ∧ length (indices st') = num_rows t.
Proof.
  intros Hev Hnl Hil. unfold label_spec_step, evaluates in *.
  destruct (condition spec) as [c|]; [|by exists st].
  destruct (condition_to_mask t c) as [m|e].
  2:{ destruct e; try done. by eexists. }
  apply bool_decide_eq_true in Hev.
  unfold np.and_. rewrite decide_True by lia. simpl.
  destruct (np.any _); simpl; [|by exists st].
  assert (length (zip_with andb m (nulls st)) = num_rows t) as Hml.
  { rewrite length_zip_with. lia. }
  destruct (match index (values st) (value spec) with
            | Ok index => (index, values st)
            | Raise _ => (length (values st), values st ++ [value spec])
            end) as [idx vals'].
  rewrite (setitem_Ok (nulls st)) by lia. simpl.
  case_decide.
  - rewrite (setitem_Ok (indices st)) by lia. simpl.
    eexists. split; [done|]. simpl. rewrite !length_zip_with. lia.
  - simpl. eexists. split; [done|]. simpl. rewrite !length_zip_with. lia.
Qed.

Lemma run_loop_total t st specs :
  evaluator_contract t specs →
  length (nulls st) = num_rows t → length (indices st) = num_rows t →
  ∃ st', run_loop t st specs = Ok st'
         ∧ length (nulls st') = num_rows t
         ∧ length (indices st') = num_rows t.
Proof.
  revert st. induction specs as [|spec specs IH]; intros st Hev Hnl Hil.
  - by exists st.
  - change (spec :: specs) with ([spec] ++ specs) in Hev.
    apply evaluator_contract_app in Hev as [Hev1 Hev2].
    unfold evaluator_contract in Hev1. simpl in Hev1.
    rewrite andb_true_r in Hev1.
    destruct (label_spec_step_total t st spec Hev1 Hnl Hil)
      as (st1 & Hstep & Hnl1 & Hil1).
    simpl. rewrite Hstep. simpl. by apply IH.
Qed.

(** X3. Only [re.error] is caught. When the rules before a rule evaluate
    and the condition of that rule raises any other exception, the
    assembler raises that exception, whatever the rules after it, and so
    does [render] under a non-empty target name: no error list is
    returned and no table is written. *)
Theorem other_exceptions_propagate t before spec after c e :
  evaluator_contract t before →
  condition spec = Some c → condition_to_mask t c = Raise e →
  (∀ pattern msg, e ≠ re_error pattern msg) →
  _generate_label_column t (before ++ spec :: after) = Raise e
  ∧ ∀ name settings, name ≠ EmptyString →
      render t {| colname := name; labels := before ++ spec :: after |}
             settings
      = Raise e.
Proof.
  intros Hev Hc Hm Hother.
  assert (_generate_label_column t (before ++ spec :: after) = Raise e)
    as Hgen.
  { destruct (run_loop_total t (initial_state t) before Hev)
      as (st & Hrun & _); [apply length_replicate..|].
    unfold _generate_label_column. rewrite run_loop_app, Hrun. simpl.
    unfold label_spec_step. rewrite Hc, Hm.
    destruct e as [pattern msg| | | |]; try done.
    by destruct (Hother pattern msg). }
  split; [done|]. intros name settings Hname.
  unfold render. simpl. rewrite decide_False by done. by rewrite Hgen.
Qed.

(** ** Replacing a column through [render] *)

Lemma add_column_existing t name data settings :
  name ∈ column_names t → len data = num_rows t →
  ∃ i, _add_column t name data settings
       = Ok ({| num_rows := num_rows t;
                columns := <[i := (name, data)]> (columns t) |}, [])
       ∧ column_names t !! i = Some name
       ∧ (∀ j, j < i → column_names t !! j ≠ Some name)
       ∧ i < length (columns t).
Proof.
  intros Hin Hlen.
  destruct (index_elem_of _ _ Hin) as (i & Hindex & Hi & Hfirst).
  assert (i < length (columns t)) as Hlt.
  { apply lookup_lt_Some in Hi. unfold column_names in Hi.
    by rewrite length_fmap in Hi. }
  exists i. split_and!; try done.
  unfold _add_column, set_column. rewrite decide_True by done.
  rewrite Hindex. simpl. by rewrite !decide_True by done.
Qed.

(** X4. Overwriting a column. When the target name names a column of the
    table and no rule raises a pattern error, [render] writes a table
    with the same row count and column names in which the label column,
    computed from the input table, stands where the first column of that
    name stood and every other column is as in the input; it returns no
    error and no warning, for every sanitizer. *)
Theorem render_overwrites_column t specs name settings :
  evaluator_contract t specs → fits_int32 specs →
  pattern_errors t specs = [] →
  name ≠ EmptyString → name ∈ column_names t →
  ∃ st i t',
    run_loop t (initial_state t) specs = Ok st
    ∧ render t {| colname := name; labels := specs |} settings
      = Ok (Some t', [])
    ∧ column_names t !! i = Some name
    ∧ (∀ j, j < i → column_names t !! j ≠ Some name)
    ∧ columns t' !! i = Some (name, DictArray (array_of st))
    ∧ (∀ j, j ≠ i → columns t' !! j = columns t !! j)
    ∧ column_names t' = column_names t
    ∧ num_rows t' = num_rows t
    ∧ ∀ r, r < num_rows t →
           to_pylist (array_of st) !! r
           = Some (value ∘ snd <$> first_match t specs r).
Proof.
  intros Hev Hfit Hnoerr Hname Hin.
  destruct (generate_label_column_invariant t specs Hev Hfit)
    as (st & Hrun & Hinv & Hgen).
  rewrite (inv_errors _ _ _ Hinv), Hnoerr in Hgen.
  destruct (add_column_existing t name (DictArray (array_of st)) settings Hin)
    as (i & Hadd & Hi & Hfirst & Hlt);
    [apply (inv_indices_length _ _ _ Hinv)|].
  exists st, i. eexists. split; [done|]. split.
  { unfold render. simpl. rewrite decide_False by done.
    rewrite Hgen. simpl. unfold array_of in Hadd. by rewrite Hadd. }
  simpl. split_and!; try done.
  - by apply list_lookup_insert_eq.
  - intros j Hj. by apply list_lookup_insert_ne.
  - unfold column_names. simpl. rewrite list_fmap_insert. simpl.
    by apply list_insert_id.
  - intros r Hr. by apply to_pylist_invariant.
Qed.

(** ** The dictionary has no unused entry *)

Lemma first_seen_elem_of l x : x ∈ first_seen l ↔ x ∈ l.
Proof.
  induction l as [|y l IH] using rev_ind; [done|].
  rewrite first_seen_snoc, elem_of_app, list_elem_of_singleton.
  case_decide as Hy.
  - rewrite IH. split; [auto|]. intros [?| ->]; [done|by apply IH].
  - by rewrite elem_of_app, list_elem_of_singleton, IH.
Qed.

Lemma used_rules_from_elem_of t before specs spec :
  spec ∈ used_rules_from t before specs →
  ∃ i, specs !! i = Some spec
       ∧ effective_rows t (before ++ take i specs) spec ≠ [].
Proof.
  revert before. induction specs as [|x specs IH]; intros before; simpl.
  - by intros ?%elem_of_nil.
  - intros [Hhere|Hrest]%elem_of_app.
    + case_decide as Heff; [by apply elem_of_nil in Hhere|].
      apply list_elem_of_singleton in Hhere as ->.
      exists 0. simpl. by rewrite app_nil_r.
    + destruct (IH _ Hrest) as (i & Hi & Heff).
      exists (S i). simpl. split; [done|].
      by rewrite <- (assoc_L (++)) in Heff.
Qed.

(** X5. No unused label. Every entry of the returned dictionary is the
    value of a rule of the list and is the label of at least one row, so
    the dictionary has at most as many entries as there are rules and at
    most as many as there are rows. *)
Theorem dictionary_entries_are_used t specs :
  evaluator_contract t specs → fits_int32 specs →
  ∃ array errs,
    _generate_label_column t specs = Ok (array, errs)
    ∧ (∀ k v, dictionary array !! k = Some v →
         (∃ spec, spec ∈ specs ∧ value spec = v)
         ∧ ∃ r, r < num_rows t
                ∧ mask array !! r = Some false
                ∧ dict_indices array !! r = Some (Z.of_nat k)
                ∧ to_pylist array !! r = Some (Some v))
    ∧ length (dictionary array) ≤ length specs
    ∧ length (dictionary array) ≤ num_rows t.
Proof.
  intros Hev Hfit.
  destruct (generate_label_column_invariant t specs Hev Hfit)
    as (st & Hrun & Hinv & Hgen).
  destruct (invariant_well_formed t specs st Hinv) as [Hnodup _].
  assert (∀ k v, values st !! k = Some v →
            (∃ spec, spec ∈ specs ∧ value spec = v)
            ∧ ∃ r, r < num_rows t
                   ∧ nulls st !! r = Some false
                   ∧ indices st !! r = Some (Z.of_nat k)
                   ∧ to_pylist (array_of st) !! r = Some (Some v)) as Hused.
  { intros k v Hk.
    assert (v ∈ value <$> used_rules t specs) as Hv.
    { apply first_seen_elem_of. rewrite <- (inv_values _ _ _ Hinv).
      by eapply list_elem_of_lookup_2. }
    apply list_elem_of_fmap in Hv as (spec & -> & Hspec).
    apply used_rules_from_elem_of in Hspec as (i & Hi & Heff). simpl in Heff.
    split.
    { exists spec. split; [by eapply list_elem_of_lookup_2|done]. }
    destruct (effective_rows t (take i specs) spec) as [|r rows] eqn:Hrows;
      [done|].
    destruct (effective_rows_first_match t specs i spec r Hi) as [Hr Hf].
    { rewrite Hrows. apply list_elem_of_here. }
    destruct (inv_labeled _ _ _ Hinv r i spec Hr Hf) as (k' & Hk' & Hv').
    rewrite (NoDup_lookup _ _ _ _ Hnodup Hv' Hk) in Hk'.
    exists r. split_and!; try done.
    - rewrite (inv_nulls _ _ _ Hinv) by done.
      assert (claimed t specs r = true) as ->; [|done].
      apply not_false_is_true. intros Hcl%claimed_first_match. congruence.
    - unfold array_of. rewrite (to_pylist_invariant t specs st r Hinv Hr).
      by rewrite Hf. }
  eexists _, _. split; [done|]. simpl. split; [exact Hused|].
  split; [apply Hinv|].
  set (stored := (λ r, default 0 (Z.to_nat <$> indices st !! r))
                 <$> seq 0 (num_rows t)).
  assert (seq 0 (length (values st)) ⊆+ stored) as Hsub.
  { apply NoDup_submseteq; [apply NoDup_seq|].
    intros k [_ Hk]%elem_of_seq.
    destruct (lookup_lt_is_Some_2 (values st) k) as [v Hv]; [lia|].
    destruct (Hused k v Hv) as (_ & r & Hr & _ & Hidx & _).
    apply list_elem_of_fmap. exists r. split.
    - rewrite Hidx. simpl. by rewrite Nat2Z.id.
    - apply elem_of_seq. lia. }
  apply submseteq_length in Hsub.
  unfold stored in Hsub. by rewrite length_fmap, !length_seq in Hsub.
Qed.

(** ** Rules that claim no row *)

Lemma label_spec_step_no_effect t before st spec :
  loop_invariant t before st → evaluates t spec = true →
  effective_rows t before spec = [] → pattern_error t spec = None →
  label_spec_step t st spec = Ok st.
Proof.
  intros Hinv Hev Heff Hpe.
  unfold label_spec_step, evaluates, pattern_error in *.
  destruct (condition spec) as [c|] eqn:Hc; [|done]. simpl in Hpe.
  destruct (condition_to_mask t c) as [m|e] eqn:Hm.
  2:{ by destruct e. }
  apply bool_decide_eq_true in Hev.
  unfold np.and_.
  rewrite decide_True by (rewrite (inv_nulls_length _ _ _ Hinv); lia).
  simpl. rewrite (np_mask_any t before st spec c m) by done.
  by rewrite bool_decide_true.
Qed.

(** X6. A rule that claims no row can be omitted. When a rule evaluates
    to a mask that selects no row, or only rows that the rules before it
    have labelled, the assembler and [render] return what they return on
    the rule list without that rule. *)
Theorem rule_without_effect_is_redundant t before spec after :
  evaluator_contract t before → fits_int32 before →
  evaluates t spec = true → pattern_error t spec = None →
  effective_rows t before spec = [] →
  _generate_label_column t (before ++ spec :: after)
  = _generate_label_column t (before ++ after)
  ∧ ∀ name settings,
      render t {| colname := name; labels := before ++ spec :: after |}
             settings
      = render t {| colname := name; labels := before ++ after |} settings.
Proof.
  intros Hev Hfit Hspec Hpe Heff.
  destruct (generate_label_column_invariant t before Hev Hfit)
    as (st & Hrun & Hinv & _).
  assert (_generate_label_column t (before ++ spec :: after)
          = _generate_label_column t (before ++ after)) as Hgen.
  { unfold _generate_label_column. rewrite !run_loop_app, Hrun. simpl.
    by rewrite (label_spec_step_no_effect t before st spec). }
  split; [done|]. intros name settings. unfold render. simpl.
  by rewrite Hgen.
Qed.

(** ** Rule order *)

Lemma overlaps_agree_spec t specs r a b :
  overlaps_agree t specs = true → r < num_rows t →
  a ∈ specs → b ∈ specs →
  matches t a r = true → matches t b r = true → value a = value b.
Proof.
  unfold overlaps_agree. rewrite forallb_forall. intros Hall Hr Ha Hb Hma Hmb.
  specialize (Hall r). rewrite forallb_forall in Hall.
  specialize (Hall (proj2 (in_seq _ _ _) (conj (Nat.le_0_l r) Hr)) a
                   (proj1 (list_elem_of_In _ _) Ha)).
  rewrite forallb_forall in Hall.
  specialize (Hall b (proj1 (list_elem_of_In _ _) Hb)).
  rewrite Hma, Hmb in Hall. simpl in Hall.
  by apply bool_decide_eq_true in Hall.
Qed.

Lemma first_match_value_Permutation t specs specs' r :
  specs ≡ₚ specs' → overlaps_agree t specs = true → r < num_rows t →
  value ∘ snd <$> first_match t specs r
  = value ∘ snd <$> first_match t specs' r.
Proof.
  intros Hperm Hagree Hr. unfold first_match.
  destruct (list_find _ specs) as [[i a]|] eqn:Hf;
    destruct (list_find _ specs') as [[j b]|] eqn:Hf'; simpl.
  - apply list_find_Some in Hf as (Ha & Hma & _).
    apply list_find_Some in Hf' as (Hb & Hmb & _).
    apply list_elem_of_lookup_2 in Ha, Hb. rewrite <- Hperm in Hb.
    f_equal. apply (overlaps_agree_spec t specs r a b); try done.
    + by apply Is_true_true.
    + by apply Is_true_true.
  - apply list_find_Some in Hf as (Ha & Hma & _).
    apply list_find_None in Hf'. rewrite Forall_forall in Hf'.
    apply list_elem_of_lookup_2 in Ha. rewrite Hperm in Ha.
    by destruct (Hf' a Ha).
  - apply list_find_Some in Hf' as (Hb & Hmb & _).
    apply list_find_None in Hf. rewrite Forall_forall in Hf.
    apply list_elem_of_lookup_2 in Hb. rewrite <- Hperm in Hb.
    by destruct (Hf b Hb).
  - done.
Qed.

Lemma evaluator_contract_Permutation t specs specs' :
  specs ≡ₚ specs' →
  evaluator_contract t specs → evaluator_contract t specs'.
Proof.
  unfold evaluator_contract. rewrite !forallb_forall.
  intros Hperm Hall spec Hin%list_elem_of_In. apply Hall.
  apply list_elem_of_In. by rewrite Hperm.
Qed.

(** X7. Rule order matters only where rules disagree. When any two rules
    that select a common row carry the same value, in particular when no
    two rules select a common row, every reordering of the rule list
    gives each row the same label. *)
Theorem labels_independent_of_order t specs specs' :
  evaluator_contract t specs → fits_int32 specs →
  specs ≡ₚ specs' → overlaps_agree t specs = true →
  ∃ array errs array' errs',
    _generate_label_column t specs = Ok (array, errs)
    ∧ _generate_label_column t specs' = Ok (array', errs')
    ∧ to_pylist array = to_pylist array'.
Proof.
  intros Hev Hfit Hperm Hagree.
  pose proof (evaluator_contract_Permutation t specs specs' Hperm Hev) as Hev'.
  assert (fits_int32 specs') as Hfit'.
  { unfold fits_int32 in *. by rewrite <- Hperm. }
  destruct (generate_label_column_invariant t specs Hev Hfit)
    as (st & _ & Hinv & Hgen).
  destruct (generate_label_column_invariant t specs' Hev' Hfit')
    as (st' & _ & Hinv' & Hgen').
  eexists _, _, _, _. split; [done|]. split; [done|].
  apply list_eq. intros r.
  destruct (decide (r < num_rows t)) as [Hr|Hr].
  - rewrite (to_pylist_invariant t specs st r Hinv Hr).
    rewrite (to_pylist_invariant t specs' st' r Hinv' Hr).
    f_equal. by apply first_match_value_Permutation.
  - pose proof (length_to_pylist_invariant t specs st Hinv) as Hl.
    pose proof (length_to_pylist_invariant t specs' st' Hinv') as Hl'.
    unfold array_of in Hl, Hl'.
    rewrite !(proj2 (lookup_ge_None _ _)); [done|lia|lia].
Qed.

(** ** What [render] returns *)

(** X8. Under the contracts of the two collaborators [render] raises
    nothing. It writes no table exactly when the target name is not empty
    and some rule raises a pattern error; a table it writes has the row
    count of the input, and every input column whose name is not the
    target name is in it at the same position. *)
Theorem render_returns t specs name settings :
  evaluator_contract t specs → fits_int32 specs →
  (∃ clean warnings,
     gen_unique_clean_colnames_and_warn [name] (column_names t) settings
     = ([clean], warnings)) →
  ∃ out errs,
    render t {| colname := name; labels := specs |} settings = Ok (out, errs)
    ∧ (out = None ↔ name ≠ EmptyString ∧ pattern_errors t specs ≠ [])
    ∧ ∀ t', out = Some t' →
        num_rows t' = num_rows t
        ∧ ∀ j c, columns t !! j = Some c → c.1 ≠ name →
                 columns t' !! j = Some c.
Proof.
  intros Hev Hfit (clean & warnings & Hclean). unfold render. simpl.
  destruct (decide (name = EmptyString)) as [Hname|Hname].
  { eexists _, _. split; [done|]. split.
    - split; [done|]. by intros [? _].
    - by intros t' [= <-]. }
  destruct (generate_label_column_invariant t specs Hev Hfit)
    as (st & Hrun & Hinv & Hgen).
  rewrite (inv_errors _ _ _ Hinv) in Hgen. rewrite Hgen. simpl.
  destruct (decide (pattern_errors t specs ≠ [])) as [Herr|Herr].
  { eexists _, _. split; [done|]. split; [done|]. by intros t' [=]. }
  apply dec_stable in Herr.
  destruct (decide (name ∈ column_names t)) as [Hin|Hnew].
  - destruct (add_column_existing t name
                (DictArray {| dict_indices := indices st;
                              dictionary := values st;
                              mask := nulls st |}) settings Hin)
      as (i & Hadd & Hi & _ & _); [apply (inv_indices_length _ _ _ Hinv)|].
    rewrite Hadd. simpl. eexists _, _. split; [done|]. split.
    { split; [done|]. by intros [_ ?]. }
    intros t' [= <-]. simpl. split; [done|].
    intros j c Hj Hc. rewrite list_lookup_insert_ne; [done|].
    intros <-. unfold column_names in Hi.
    rewrite list_lookup_fmap, Hj in Hi. simpl in Hi. congruence.
  - unfold _add_column, append_column. rewrite decide_False by done.
    rewrite Hclean. simpl.
    rewrite decide_True by apply (inv_indices_length _ _ _ Hinv). simpl.
    eexists _, _. split; [done|]. split.
    { split; [done|]. by intros [_ ?]. }
    intros t' [= <-]. simpl. split; [done|].
    intros j c Hj _. by apply lookup_app_l_Some.
Qed.

(** ** A rule added at the end *)

(** X9. A rule added at the end of the list fills nulls only. Each row
    that has a label keeps it, a row that is null gets the value of the
    new rule when that rule selects it, and stays null otherwise. *)
Theorem appended_rule_fills_nulls t specs spec :
  evaluator_contract t (specs ++ [spec]) → fits_int32 (specs ++ [spec]) →
  ∃ array errs array' errs',
    _generate_label_column t specs = Ok (array, errs)
    ∧ _generate_label_column t (specs ++ [spec]) = Ok (array', errs')
    ∧ ∀ r, r < num_rows t →
        ∃ old,
          to_pylist array !! r = Some old
          ∧ to_pylist array' !! r
            = Some (match old with
                    | Some v => Some v
                    | None =>
                        if matches t spec r then Some (value spec) else None
                    end).
Proof.
  intros Hev Hfit.
  pose proof (proj1 (proj1 (evaluator_contract_app _ _ _) Hev)) as Hev0.
  pose proof (fits_int32_app_l _ _ Hfit) as Hfit0.
  destruct (generate_label_column_invariant t specs Hev0 Hfit0)
    as (st & _ & Hinv & Hgen).
  destruct (generate_label_column_invariant t _ Hev Hfit)
    as (st' & _ & Hinv' & Hgen').
  eexists _, _, _, _. split; [done|]. split; [done|].
  intros r Hr. eexists. split; [by apply to_pylist_invariant|].
  rewrite (to_pylist_invariant t _ st' r Hinv' Hr), first_match_snoc.
  destruct (first_match t specs r) as [[i x]|]; simpl; [done|].
  by destruct (matches t spec r).
Qed.

End further_properties.

(** * The further properties at the test tables *)

Lemma no_condition_all_null_witness :
  (∀ spec, spec ∈ rules_ignore_null → condition spec = None)
  ∧ _generate_label_column table_A123 rules_ignore_null
    = Ok (all_null table_A123, [])
  ∧ to_pylist (all_null table_A123) = [None; None; None].
Proof.
  assert (∀ spec, spec ∈ rules_ignore_null → condition spec = None)
    as Hnone.
  { by intros spec ->%list_elem_of_singleton. }
  split; [exact Hnone|].
  apply (no_condition_all_null table_A123 rules_ignore_null Hnone).
Defined.

Lemma other_exceptions_propagate_witness :
  evaluator_contract table_A123 rules_match
  ∧ condition_to_mask (Cjwmodule := test_cjwmodule) table_A123 (EQ "Z" 1)
    = Raise OtherError
  ∧ _generate_label_column table_A123 (rules_match ++ rules_missing_column)
    = Raise OtherError
  ∧ render table_A123
           {| colname := "B";
              labels := rules_match ++ rules_missing_column |} tt
    = Raise OtherError.
Proof.
  split; [reflexivity|]. split; [reflexivity|].
  destruct (other_exceptions_propagate table_A123 rules_match
              (rule "z" (Some (EQ "Z" 1))) [rule "b" (Some (GT "A" 1))]
              (EQ "Z" 1) OtherError)
    as [Hgen Hrender]; [reflexivity|reflexivity|reflexivity|discriminate|].
  split; [exact Hgen|]. apply (Hrender "B" tt). discriminate.
Defined.

Lemma render_overwrites_column_witness :
  evaluator_contract table_A123_B234 rules_match
  ∧ fits_int32 rules_match
  ∧ pattern_errors table_A123_B234 rules_match = []
  ∧ "A" ∈ column_names table_A123_B234
  ∧ ∃ st t',
      render table_A123_B234 {| colname := "A"; labels := rules_match |} tt
      = Ok (Some t', [])
      ∧ columns t' !! 0 = Some ("A", DictArray (array_of st))
      ∧ columns t' !! 1 = Some ("B", Int64Array [Some 2; Some 3; Some 4]%Z)
      ∧ to_pylist (array_of st) !! 1 = Some (Some "a").
Proof.
  split; [reflexivity|]. split; [reflexivity|]. split; [reflexivity|].
  split; [apply list_elem_of_here|].
  destruct (render_overwrites_column table_A123_B234 rules_match "A" tt)
    as (st & i & t' & _ & Hrender & _ & Hfirst & Hset & Hother & _ & _
        & Hrows);
    [reflexivity|reflexivity|reflexivity|discriminate
    |apply list_elem_of_here|].
  assert (i = 0) as ->.
  { destruct i as [|i]; [reflexivity|].
    exfalso. apply (Hfirst 0); [lia|reflexivity]. }
  exists st, t'. split; [exact Hrender|]. split; [exact Hset|].
  split; [rewrite Hother by lia; reflexivity|].
  apply (Hrows 1). simpl. lia.
Defined.

Lemma dictionary_entries_are_used_witness :
  evaluator_contract table_A123 rules_unused_first
  ∧ fits_int32 rules_unused_first
  ∧ ∃ array errs,
      _generate_label_column table_A123 rules_unused_first
      = Ok (array, errs)
      ∧ length (dictionary array) ≤ 3.
Proof.
  split; [reflexivity|]. split; [reflexivity|].
  destruct (dictionary_entries_are_used table_A123 rules_unused_first)
    as (array & errs & Hgen & _ & _ & Hrows); [reflexivity..|].
  exists array, errs. split; [exact Hgen|exact Hrows].
Defined.

Lemma rule_without_effect_is_redundant_witness :
  evaluator_contract table_A123 rules_match
  ∧ fits_int32 rules_match
  ∧ evaluates table_A123 (rule "b" (Some (EQ "A" 2))) = true
  ∧ pattern_error table_A123 (rule "b" (Some (EQ "A" 2))) = None
  ∧ effective_rows table_A123 rules_match (rule "b" (Some (EQ "A" 2))) = []
  ∧ _generate_label_column table_A123
      (rules_match
       ++ rule "b" (Some (EQ "A" 2)) :: [rule "c" (Some (GT "A" 2))])
    = _generate_label_column table_A123
        (rules_match ++ [rule "c" (Some (GT "A" 2))]).
Proof.
  split; [reflexivity|]. split; [reflexivity|]. split; [reflexivity|].
  split; [reflexivity|]. split; [reflexivity|].
  apply (rule_without_effect_is_redundant table_A123 rules_match
           (rule "b" (Some (EQ "A" 2))) [rule "c" (Some (GT "A" 2))]);
    reflexivity.
Defined.

Lemma labels_independent_of_order_witness :
  evaluator_contract table_A123 rules_disjoint
  ∧ fits_int32 rules_disjoint
  ∧ rules_disjoint ≡ₚ rules_disjoint_swapped
  ∧ overlaps_agree table_A123 rules_disjoint = true
  ∧ ∃ array errs array' errs',
      _generate_label_column table_A123 rules_disjoint = Ok (array, errs)
      ∧ _generate_label_column table_A123 rules_disjoint_swapped
        = Ok (array', errs')
      ∧ to_pylist array = to_pylist array'.
Proof.
  split; [reflexivity|]. split; [reflexivity|].
  split; [apply perm_swap|]. split; [reflexivity|].
  apply (labels_independent_of_order table_A123 rules_disjoint
           rules_disjoint_swapped);
    [reflexivity|reflexivity|apply perm_swap|reflexivity].
Defined.

Lemma render_returns_witness :
  evaluator_contract table_text rules_regex_errors
  ∧ fits_int32 rules_regex_errors
  ∧ ∃ out errs,
      render table_text {| colname := "B"; labels := rules_regex_errors |} tt
      = Ok (out, errs)
      ∧ (out = None
         ↔ "B" ≠ EmptyString
           ∧ pattern_errors table_text rules_regex_errors ≠ []).
Proof.
  split; [reflexivity|]. split; [reflexivity|].
  destruct (render_returns table_text rules_regex_errors "B" tt)
    as (out & errs & Hrender & Hnone & _);
    [reflexivity|reflexivity|eexists _, _; reflexivity|].
  exists out, errs. split; [exact Hrender|exact Hnone].
Defined.

Lemma appended_rule_fills_nulls_witness :
  evaluator_contract table_A123 (rules_match ++ [rule "b" (Some (GT "A" 1))])
  ∧ fits_int32 (rules_match ++ [rule "b" (Some (GT "A" 1))])
  ∧ ∃ array errs array' errs',
      _generate_label_column table_A123 rules_match = Ok (array, errs)
      ∧ _generate_label_column table_A123
          (rules_match ++ [rule "b" (Some (GT "A" 1))])
        = Ok (array', errs')
      ∧ to_pylist array = [None; Some "a"; None]
      ∧ to_pylist array' = [None; Some "a"; Some "b"].
Proof.
  split; [reflexivity|]. split; [reflexivity|].
  destruct (appended_rule_fills_nulls table_A123 rules_match
              (rule "b" (Some (GT "A" 1))))
    as (array & errs & array' & errs' & Hgen & Hgen' & _); [reflexivity..|].
  exists array, errs, array', errs'. split; [exact Hgen|].
  split; [exact Hgen'|].
  vm_compute in Hgen, Hgen'.
  injection Hgen as <- _. injection Hgen' as <- _. split; reflexivity.
Defined.
